(** * CLIP in MLX: the byte-pair tokenizer and the encoder front-ends

    A shallow embedding of [clip/tokenizer.py] and of the shape- and
    index-level behaviour of [clip/model.py], with the properties the
    specification states about them.

    Python strings are modelled as [string] (a sequence of 8-bit code
    points), dictionaries as [gmap], Python exceptions as an explicit
    outcome type, and the mutable tokenizer object by state passing. *)

From Stdlib Require Import ZArith List String Ascii Bool Lia.
From stdpp Require Import base option list gmap strings.

Local Open Scope Z_scope.
Local Open Scope nat_scope.

(** ** Exceptions and outcomes *)

Inductive exn : Type :=
| IndexError
| KeyError (key : string)
| UnboundLocalError
| ValueError.

(** The result of running a piece of Python: a value, a raised exception,
    or (for the one loop modelled with fuel) fuel exhaustion. *)
Inductive outcome (A : Type) : Type :=
| Ok (a : A)
| Raise (e : exn)
| OutOfFuel.
Arguments Ok {A} a.
Arguments Raise {A} e.
Arguments OutOfFuel {A}.

Definition obind {A B} (m : outcome A) (k : A -> outcome B) : outcome B :=
  match m with
  | Ok a => k a
  | Raise e => Raise e
  | OutOfFuel => OutOfFuel
  end.

(** ** Characters and strings *)

(** The Unicode property tables the tokenizer relies on ([str.lower], and
    the classes [\s], [\p{L}], [\p{N}] of the [regex] module).  They belong
    to the Python runtime, not to the repository, so they are an interface;
    [latin1_tables] below instantiates it. *)
Class UnicodeTables := {
  is_space : ascii -> bool;
  is_letter : ascii -> bool;
  is_number : ascii -> bool;
  lower : ascii -> ascii;
  is_space_blank : is_space " "%char = true;
  is_space_lower : forall c, is_space (lower c) = is_space c;
  is_space_letter : forall c, is_space c = true -> is_letter c = false;
  is_space_number : forall c, is_space c = true -> is_number c = false
}.

Module Latin1.
Definition code (c : ascii) : N := N_of_ascii c.

Definition between (lo hi : N) (c : ascii) : bool :=
  (N.leb lo (code c) && N.leb (code c) hi)%bool.

(** White_Space: U+0009..U+000D, U+0020, U+0085, U+00A0. *)
Definition is_space (c : ascii) : bool :=
  (between 9 13 c || N.eqb (code c) 32 || N.eqb (code c) 133
   || N.eqb (code c) 160)%bool.

Definition is_upper (c : ascii) : bool :=
  (between 65 90 c || between 192 214 c || between 216 222 c)%bool.

(** General category L below U+0100. *)
Definition is_letter (c : ascii) : bool :=
  (between 65 90 c || between 97 122 c || N.eqb (code c) 170
   || N.eqb (code c) 181 || N.eqb (code c) 186 || between 192 214 c
   || between 216 246 c || between 248 255 c)%bool.

(** General category N below U+0100: digits, superscripts, fractions. *)
Definition is_number (c : ascii) : bool :=
  (between 48 57 c || between 178 179 c || N.eqb (code c) 185
   || between 188 190 c)%bool.

Definition lower (c : ascii) : ascii :=
  if is_upper c then ascii_of_N (code c + 32) else c.
End Latin1.

#[export] Program Instance latin1_tables : UnicodeTables := {|
  is_space := Latin1.is_space;
  is_letter := Latin1.is_letter;
  is_number := Latin1.is_number;
  lower := Latin1.lower
|}.
Next Obligation. reflexivity. Qed.
Next Obligation. intros [[] [] [] [] [] [] [] []]; reflexivity. Qed.
Next Obligation. intros [[] [] [] [] [] [] [] []]; vm_compute; congruence. Qed.
Next Obligation. intros [[] [] [] [] [] [] [] []]; vm_compute; congruence. Qed.

(** [list(s)]: the characters of a string, each as a one-character string. *)
Fixpoint chars (s : string) : list string :=
  match s with
  | EmptyString => []
  | String c r => String c EmptyString :: chars r
  end.

Fixpoint str_map (f : ascii -> ascii) (s : string) : string :=
  match s with
  | EmptyString => EmptyString
  | String c r => String (f c) (str_map f r)
  end.

Fixpoint str_forallb (p : ascii -> bool) (s : string) : bool :=
  match s with
  | EmptyString => true
  | String c r => p c && str_forallb p r
  end.

(** The longest prefix of [s] whose characters all satisfy [p]. *)
Fixpoint take_while (p : ascii -> bool) (s : string) : string :=
  match s with
  | EmptyString => EmptyString
  | String c r => if p c then String c (take_while p r) else EmptyString
  end.

Section Pattern.
Context `{UnicodeTables}.

(** [text.lower()] *)
Definition str_lower (s : string) : string := str_map lower s.

(** [regex.sub(r"\s+", " ", s)]: every maximal run of white space becomes
    one blank.  [in_run] tells that the previous character was white
    space, whose blank has been emitted already. *)
Fixpoint sub_spaces (in_run : bool) (s : string) : string :=
  match s with
  | EmptyString => EmptyString
  | String c r =>
      if is_space c
      then (if in_run then sub_spaces true r
            else String " " (sub_spaces true r))
      else String c (sub_spaces false r)
  end.

(** Two characters are equal under [regex.IGNORECASE]. *)
Definition ci_eqb (a b : ascii) : bool := Ascii.eqb (lower a) (lower b).

(** A literal alternative of the pattern, matched at the head of [s]
    ignoring case; the match is the text of [s], not of the pattern. *)
Fixpoint literal (p s : string) : option string :=
  match p with
  | EmptyString => Some EmptyString
  | String a p' =>
      match s with
      | EmptyString => None
      | String c s' =>
          if ci_eqb a c
          then match literal p' s' with
               | Some m => Some (String c m)
               | None => None
               end
          else None
      end
  end.

(** A greedy [[class]+] alternative. *)
Definition run (p : ascii -> bool) (s : string) : option string :=
  match take_while p s with
  | EmptyString => None
  | m => Some m
  end.

(** A single [[class]] alternative. *)
Definition single (p : ascii -> bool) (s : string) : option string :=
  match s with
  | String c _ => if p c then Some (String c EmptyString) else None
  | EmptyString => None
  end.

(** [[^\s\p{L}\p{N}]] *)
Definition is_other (c : ascii) : bool :=
  negb (is_space c || is_letter c || is_number c).

Definition orelse {A} (a b : option A) : option A :=
  match a with Some _ => a | None => b end.

(** [self.pat] tried at the head of [s]: the alternatives in the order of
    the pattern, the first that matches wins. *)
Definition pat (s : string) : option string :=
  orelse (literal "<|startoftext|>" s)
  (orelse (literal "<|endoftext|>" s)
  (orelse (literal "'s" s)
  (orelse (literal "'t" s)
  (orelse (literal "'re" s)
  (orelse (literal "'ve" s)
  (orelse (literal "'m" s)
  (orelse (literal "'ll" s)
  (orelse (literal "'d" s)
  (orelse (run is_letter s)
  (orelse (single is_number s)
          (run is_other s))))))))))).

(** [regex.findall(self.pat, s)]: the successive non-overlapping matches,
    left to right.  [inside] counts the characters of the previous match
    still to be passed over; where nothing matches the scan moves on by
    one character. *)
Fixpoint findall_from (inside : nat) (s : string) : list string :=
  match s with
  | EmptyString => []
  | String _ r =>
      match inside with
      | S k => findall_from k r
      | O =>
          match pat s with
          | Some m => m :: findall_from (pred (String.length m)) r
          | None => findall_from O r
          end
      end
  end.

Definition findall (s : string) : list string := findall_from O s.

(** Lines 96-97 of [tokenize]. *)
Definition coarse_tokens (text : string) : list string :=
  findall (sub_spaces false (str_lower text)).
End Pattern.


(** ** The tokenizer object *)

(** A value stored in [self._cache] or returned by [bpe]: the two
    pre-seeded entries are Python strings, every entry [bpe] adds is a list
    of strings. *)
Inductive pyval : Type :=
| PyStr (s : string)
| PyList (l : list string).

(** Iterating over such a value, as the comprehension in [tokenize] does:
    a list yields its elements, a string yields its characters. *)
Definition py_iter (v : pyval) : list string :=
  match v with
  | PyStr s => chars s
  | PyList l => l
  end.

Abbreviation bigram := (string * string)%type.

(** The iteration order of a Python [set] built from a list.  It depends on
    string hashes, so it is an interface: all that is known is that the set
    has exactly the elements of the list. *)
Class PySet := {
  set_iter : list bigram -> list bigram;
  set_iter_elem : forall l x, x ∈ set_iter l <-> x ∈ l
}.

#[export] Instance first_seen_set : PySet := {|
  set_iter := remove_dups;
  set_iter_elem := fun l x => elem_of_remove_dups l x
|}.

(** The key of [min] in [bpe]: [self.bpe_ranks.get(pair, float("inf"))]. *)
Inductive rank_key : Type :=
| Rank (r : Z)
| Inf.

Definition key_ltb (a b : rank_key) : bool :=
  match a, b with
  | Rank x, Rank y => Z.ltb x y
  | Rank _, Inf => true
  | Inf, _ => false
  end.

(** Python's [min(iterable, key=...)] on a non-empty iterable: the first
    item keeps its place until a later one has a strictly smaller key. *)
Fixpoint py_min {A} (key : A -> rank_key) (best : A) (rest : list A) : A :=
  match rest with
  | [] => best
  | x :: rest' =>
      if key_ltb (key x) (key best) then py_min key x rest'
      else py_min key best rest'
  end.

Record CLIPTokenizer : Type := {
  bpe_ranks : gmap bigram Z;
  vocab : gmap string Z;
  _cache : gmap string pyval;
  (** Ghost field, absent from the source: how many times [bpe] has
      reached its [while] loop (line 55). *)
  merge_loops : nat
}.

Definition bos : string := "<|startoftext|>".
Definition eos : string := "<|endoftext|>".

(** [CLIPTokenizer.__init__] *)
Definition init (ranks : gmap bigram Z) (vocabulary : gmap string Z)
  : CLIPTokenizer :=
  {| bpe_ranks := ranks;
     vocab := vocabulary;
     _cache := <[bos := PyStr bos]> (<[eos := PyStr eos]> ∅);
     merge_loops := 0 |}.

Definition set_cache (text : string) (v : pyval) (self : CLIPTokenizer)
  : CLIPTokenizer :=
  {| bpe_ranks := bpe_ranks self;
     vocab := vocab self;
     _cache := <[text := v]> (_cache self);
     merge_loops := merge_loops self |}.

Definition enter_loop (self : CLIPTokenizer) : CLIPTokenizer :=
  {| bpe_ranks := bpe_ranks self;
     vocab := vocab self;
     _cache := _cache self;
     merge_loops := S (merge_loops self) |}.

(** Methods run in a state-and-exception monad over the object. *)
Definition M (A : Type) : Type := CLIPTokenizer -> outcome A * CLIPTokenizer.

Definition ret {A} (a : A) : M A := fun self => (Ok a, self).

Definition bind {A B} (m : M A) (k : A -> M B) : M B :=
  fun self =>
    match m self with
    | (Ok a, self') => k a self'
    | (Raise e, self') => (Raise e, self')
    | (OutOfFuel, self') => (OutOfFuel, self')
    end.

Notation "'do' x <- m ; k" := (bind m (fun x => k))
  (at level 10, x name, m at level 100, k at level 200).

(** [self.vocab[t]] *)
Definition vocab_get (t : string) : M Z :=
  fun self =>
    match vocab self !! t with
    | Some i => (Ok i, self)
    | None => (Raise (KeyError t), self)
    end.

(** [self.bos_token] and [self.eos_token] *)
Definition bos_token : M Z := vocab_get bos.
Definition eos_token : M Z := vocab_get eos.

(** [text[:-1]] *)
Fixpoint but_last (s : string) : string :=
  match s with
  | EmptyString => EmptyString
  | String c EmptyString => EmptyString
  | String c r => String c (but_last r)
  end.

(** [text[-1]], an [IndexError] on the empty string. *)
Fixpoint last_char (s : string) : outcome ascii :=
  match s with
  | EmptyString => Raise IndexError
  | String c EmptyString => Ok c
  | String _ r => last_char r
  end.

(** Line 45: [list(text[:-1]) + [text[-1] + "</w>"]] *)
Definition unigrams_of (text : string) : outcome (list string) :=
  obind (last_char text) (fun c =>
    Ok (chars (but_last text) ++ [String c EmptyString +:+ "</w>"])).

(** [zip(unigrams, unigrams[1:])] *)
Definition bigrams (unigrams : list string) : list bigram :=
  zip unigrams (tail unigrams).

Definition pair_eqb (p q : bigram) : bool := bool_decide (p = q).

(** The [for] loop of lines 64-74, over the remaining pairs, with the
    loop's variables [new_unigrams] and [skip]. *)
Fixpoint merge_for (target : bigram) (pairs : list bigram)
    (new_unigrams : list string) (skip : bool) : list string * bool :=
  match pairs with
  | [] => (new_unigrams, skip)
  | (a, b) :: pairs' =>
      if skip then merge_for target pairs' new_unigrams false
      else if pair_eqb (a, b) target
      then merge_for target pairs' (new_unigrams ++ [a +:+ b]) true
      else merge_for target pairs' (new_unigrams ++ [a]) false
  end.

(** Lines 62-77: one pass.  After the loop [b] is the second component of
    the last pair; it is unbound when the loop body never ran. *)
Definition merge_pass (target : bigram) (unigrams : list string)
  : outcome (list string) :=
  let pairs := bigrams unigrams in
  let '(new_unigrams, skip) := merge_for target pairs [] false in
  if skip then Ok new_unigrams
  else match last pairs with
       | Some (_, b) => Ok (new_unigrams ++ [b])
       | None => Raise UnboundLocalError
       end.

Section Bpe.
Context `{PySet}.

Definition rank_of (ranks : gmap bigram Z) (pair : bigram) : rank_key :=
  match ranks !! pair with
  | Some r => Rank r
  | None => Inf
  end.

(** The [while] loop of lines 55-80.  Every merge shortens the sequence,
    so [length unigrams] iterations of fuel are enough
    ([bpe_loop_total]). *)
Fixpoint bpe_loop (ranks : gmap bigram Z) (fuel : nat)
    (unigrams : list string) : outcome (list string) :=
  match set_iter (bigrams unigrams) with
  | [] => Ok unigrams
  | first :: others =>
      let best := py_min (rank_of ranks) first others in
      match ranks !! best with
      | None => Ok unigrams
      | Some _ =>
          match fuel with
          | O => OutOfFuel
          | S fuel' =>
              obind (merge_pass best unigrams) (bpe_loop ranks fuel')
          end
      end
  end.

(** [CLIPTokenizer.bpe] *)
Definition bpe (text : string) : M pyval :=
  fun self =>
    match _cache self !! text with
    | Some cached => (Ok cached, self)
    | None =>
        match unigrams_of text with
        | Ok unigrams =>
            match set_iter (bigrams unigrams) with
            | [] => (Ok (PyList unigrams), self)
            | _ :: _ =>
                let self' := enter_loop self in
                match bpe_loop (bpe_ranks self) (length unigrams) unigrams
                with
                | Ok merged =>
                    (Ok (PyList merged), set_cache text (PyList merged) self')
                | Raise e => (Raise e, self')
                | OutOfFuel => (OutOfFuel, self')
                end
            end
        | Raise e => (Raise e, self)
        | OutOfFuel => (OutOfFuel, self)
        end
    end.

(** The comprehension of line 100:
    [[ti for t in tokens for ti in self.bpe(t)]] *)
Fixpoint bpe_tokens (tokens : list string) : M (list string) :=
  match tokens with
  | [] => ret []
  | t :: tokens' =>
      do pieces <- bpe t;
      do more <- bpe_tokens tokens';
      ret (py_iter pieces ++ more)
  end.

(** The comprehension of line 103: [[self.vocab[t] for t in bpe_tokens]] *)
Fixpoint vocab_ids (sub_tokens : list string) : M (list Z) :=
  match sub_tokens with
  | [] => ret []
  | t :: sub_tokens' =>
      do i <- vocab_get t;
      do more <- vocab_ids sub_tokens';
      ret (i :: more)
  end.

Context `{UnicodeTables}.

(** [CLIPTokenizer.tokenize] on one string (lines 96-109).  The result is
    the list [tokens] that line 109 hands to [mx.array]; the array holds
    its ids as they are when they are 32-bit integers. *)
Definition tokenize (text : string) (prepend_bos append_eos : bool)
  : M (list Z) :=
  let tokens := coarse_tokens text in
  do sub_tokens <- bpe_tokens tokens;
  do ids <- vocab_ids sub_tokens;
  do ids <- (if prepend_bos then (do b <- bos_token; ret ([b] ++ ids))
             else ret ids);
  do ids <- (if append_eos then (do e <- eos_token; ret (ids ++ [e]))
             else ret ids);
  ret ids.
End Bpe.


(** ** The merge loop as the specification words it

    These definitions follow the specification's description of byte-pair
    merging, not the source; [bpe_refines_spec] relates the two. *)

(** "Merge every non-overlapping occurrence of that exact bigram
    left-to-right in one pass (a merged pair cannot itself participate in
    the same pass)". *)
Fixpoint merge_occurrences (target : bigram) (unigrams : list string)
  : list string :=
  match unigrams with
  | [] => []
  | a :: rest =>
      match rest with
      | [] => [a]
      | b :: rest' =>
          if bool_decide ((a, b) = target)
          then (a +:+ b) :: merge_occurrences target rest'
          else a :: merge_occurrences target rest
      end
  end.

(** "The adjacent unigram pairs currently present": [pair] is present in
    [unigrams] when its first component stands somewhere in the sequence
    with its second component right after it. *)
Definition adjacent (unigrams : list string) (pair : bigram) : Prop :=
  exists before after,
    unigrams = before ++ pair.1 :: pair.2 :: after.

(** "The bigram with the lowest merge rank among all bigrams currently
    present": it is present, and whenever a present bigram has a rank, it
    has a rank too, and one that is not greater.  (A bigram absent from
    the merge table ranks after every bigram of the table.) *)
Definition lowest_rank (ranks : gmap bigram Z) (unigrams : list string)
    (best : bigram) : Prop :=
  adjacent unigrams best /\
  forall p r,
    adjacent unigrams p -> ranks !! p = Some r ->
    exists r_best, ranks !! best = Some r_best /\ (r_best <= r)%Z.

(** "Repeatedly find the bigram with the lowest merge rank; if it has no
    assigned rank, stop; otherwise merge and repeat."  A sequence without
    a bigram is left as it is. *)
Inductive merges_to (ranks : gmap bigram Z)
  : list string -> list string -> Prop :=
| merges_none unigrams :
    (forall p, ~ adjacent unigrams p) ->
    merges_to ranks unigrams unigrams
| merges_stop unigrams best :
    lowest_rank ranks unigrams best ->
    ranks !! best = None ->
    merges_to ranks unigrams unigrams
| merges_step unigrams best r final :
    lowest_rank ranks unigrams best ->
    ranks !! best = Some r ->
    merges_to ranks (merge_occurrences best unigrams) final ->
    merges_to ranks unigrams final.

(** ** A small tokenizer for worked examples *)

(** The vocabulary and merge table of the specification's concrete case. *)
Definition example_vocab : gmap string Z :=
  list_to_map
    [("a", 0%Z); ("b", 1%Z); ("ab", 2%Z); ("a</w>", 3%Z); ("b</w>", 4%Z);
     ("ab</w>", 5%Z); ("<|startoftext|>", 6%Z); ("<|endoftext|>", 7%Z)].

Definition example_ranks : gmap bigram Z := {[ ("a", "b</w>") := 0%Z ]}.

(** The same vocabulary with, as in CLIP's own, an entry for every single
    character that occurs in the begin-of-text marker. *)
Definition marker_vocab : gmap string Z :=
  list_to_map
    [("<", 10%Z); ("|", 11%Z); ("s", 12%Z); ("t", 13%Z); ("a", 14%Z);
     ("r", 15%Z); ("o", 16%Z); ("f", 17%Z); ("e", 18%Z); ("x", 19%Z);
     (">", 20%Z)]
  ∪ example_vocab.

(** ** Replaying a call *)

(** A later state of an object extends an earlier one: same vocabulary,
    and the cache has only gained entries, each for a text of two or more
    characters. *)
Definition extends (s s' : CLIPTokenizer) : Prop :=
  vocab s' = vocab s /\
  forall k, _cache s' !! k = _cache s !! k \/
            (_cache s !! k = None /\ (2 <= String.length k)%nat).

(** A method call can be replayed: made again on the object it left behind,
    or on any later state of it, it gives the same outcome and changes
    nothing, the ghost loop counter included. *)
Definition replays {A} (m : M A) : Prop :=
  forall s o s', m s = (o, s') ->
    extends s s' /\ forall s'', extends s' s'' -> m s'' = (o, s'').

(** * The encoders and the joint model ([clip/model.py]) *)

(** ** The array substrate

    MLX's floating-point scalars and the reductions over them are kept
    abstract: no algebraic law is assumed of them, so what is proved below
    holds of the floating-point operations as it would of exact ones. *)
Class Scalar := {
  num : Type;
  zero : num;
  two : num;
  (** the value of a blocked entry of an additive attention mask *)
  mask_min : num;
  add : num -> num -> num;
  sub : num -> num -> num;
  mul : num -> num -> num;
  div : num -> num -> num;
  exp : num -> num;
  sqrt : num -> num;
  (** [mx.sum], [mx.mean] and [mx.logsumexp] over one axis *)
  sum : list num -> num;
  mean : list num -> num;
  logsumexp : list num -> num
}.

(** A free instance: every operation builds the term that names it.  It
    serves to run the definitions on concrete arrays. *)
Unset Elimination Schemes.
Inductive sym : Type :=
| SLit (z : Z)
| SAdd (a b : sym)
| SSub (a b : sym)
| SMul (a b : sym)
| SDiv (a b : sym)
| SExp (a : sym)
| SSqrt (a : sym)
| SSum (l : list sym)
| SMean (l : list sym)
| SLogSumExp (l : list sym).
Set Elimination Schemes.

#[export] Instance sym_scalar : Scalar := {|
  num := sym;
  zero := SLit 0;
  two := SLit 2;
  mask_min := SLit (-1000000000);
  add := SAdd;
  sub := SSub;
  mul := SMul;
  div := SDiv;
  exp := SExp;
  sqrt := SSqrt;
  sum := SSum;
  mean := SMean;
  logsumexp := SLogSumExp
|}.

(** MLX does not check the index of a read along an axis
    ([take_along_axis]): a read past the end of a row yields whatever the
    memory holds there.  [stray_read row i] stands for that value;
    nothing is assumed of it. *)
Class Memory `{Scalar} := {
  stray_read : list num -> nat -> num
}.

#[export] Instance sym_memory : Memory := {|
  stray_read := fun _ _ => SLit (-1)
|}.

(** A batch of token-id sequences: an integer array of shape
    [(length id_rows, seq_len)]. *)
Record id_batch : Type := {
  seq_len : nat;
  id_rows : list (list Z)
}.

Definition rectangular (x : id_batch) : Prop :=
  Forall (fun row => length row = seq_len x) (id_rows x).

(** [mx.argmax] along a row: the first position of the largest entry.
    [best_at] and [best] are the position and value of the largest entry
    seen so far, [i] is the position of the head of [row]. *)
Fixpoint argmax_from (best_at : nat) (best : Z) (i : nat) (row : list Z)
  : nat :=
  match row with
  | [] => best_at
  | v :: row' =>
      if Z.ltb best v then argmax_from i v (S i) row'
      else argmax_from best_at best (S i) row'
  end.

Definition argmax_row (row : list Z) : nat :=
  match row with
  | [] => O
  | v :: row' => argmax_from O v 1 row'
  end.

(** [mx.argmax(x, axis=-1)], which refuses an array without elements. *)
Definition argmax (x : id_batch) : outcome (list nat) :=
  if (Nat.eqb (length (id_rows x)) 0 || Nat.eqb (seq_len x) 0)%bool
  then Raise ValueError
  else Ok (map argmax_row (id_rows x)).

(** The length along one axis of the result of broadcasting two arrays,
    or the shape error of MLX when the lengths are incompatible. *)
Definition broadcast_len (n m : nat) : outcome nat :=
  if Nat.eqb n m then Ok n
  else if Nat.eqb m 1 then Ok n
  else if Nat.eqb n 1 then Ok m
  else Raise ValueError.

(** [last_hidden_state[mx.arange(B), eot_tokens]]: for every batch index
    the entry at that row's position.  MLX refuses to read from an array
    without positions ([ValueError]).  It does not check the bounds of a
    read otherwise; the model stops with an [IndexError] where the index
    would be out of range. *)
Fixpoint gather_rows {A} (rows : list (list A)) (at_ : list nat)
    {struct at_} : outcome (list A) :=
  match at_ with
  | [] => Ok []
  | i :: at' =>
      match rows with
      | [] => Raise IndexError
      | row :: rows' =>
          match row !! i with
          | None => match row with
                    | [] => Raise ValueError
                    | _ :: _ => Raise IndexError
                    end
          | Some v => obind (gather_rows rows' at') (fun vs => Ok (v :: vs))
          end
      end
  end.

(** A float vector, and hidden states of shape
    [(batch, positions, hidden_size)]. *)
Abbreviation vector := (list num).
Abbreviation hidden := (list (list (list num))).

Section Model.
Context `{Scalar}.

Definition vadd (u v : vector) : vector := zip_with add u v.

(** [nn.MultiHeadAttention.create_additive_causal_mask(N)]: entry
    [(i, j)] blocks position [j] for position [i] when [i < j]. *)
Definition create_additive_causal_mask (N : nat) : list (list num) :=
  map (fun i => map (fun j => if Nat.ltb i j then mask_min else zero)
                    (seq 0 N))
      (seq 0 N).

(** An encoder layer called as [l(x, mask)]. *)
Definition layer : Type := hidden -> list (list num) -> hidden.

Record CLIPTextOutput : Type := {
  pooler_output : list vector;
  last_hidden_state : hidden
}.

Record CLIPTextModel : Type := {
  (** [self.token_embedding(x)] at one token id *)
  token_embedding : Z -> vector;
  (** the table of shape [(max_position_embeddings, hidden_size)] *)
  position_embedding : list vector;
  layers : list layer;
  (** [nn.LayerNorm], which acts on each position's vector *)
  final_layer_norm : vector -> vector
}.

Definition max_position_embeddings (self : CLIPTextModel) : nat :=
  length (position_embedding self).

(** [a + b] for [a] of shape [(n, d)] and [b] of shape [(m, d)] whose
    lengths [broadcast_len] accepts. *)
Definition broadcast_add (a b : list vector) : list vector :=
  if Nat.eqb (length a) (length b) then zip_with vadd a b
  else match b with
       | [p] => map (fun e => vadd e p) a
       | _ => match a with
              | [e] => map (vadd e) b
              | _ => []
              end
       end.

(** [CLIPTextModel._embed] *)
Definition _embed (self : CLIPTextModel) (x : id_batch) : outcome hidden :=
  let N := seq_len x in
  let embeddings := map (map (token_embedding self)) (id_rows x) in
  let positions := firstn N (position_embedding self) in
  obind (broadcast_len N (length positions)) (fun _ =>
    Ok (map (fun e => broadcast_add e positions) embeddings)).

(** [reduce(lambda x, l: l(x, mask), self.layers, x)] *)
Definition run_layers (ls : list layer) (mask : list (list num))
    (x : hidden) : hidden :=
  fold_left (fun x l => l x mask) ls x.

(** [CLIPTextModel.__call__] *)
Definition CLIPTextModel_call (self : CLIPTextModel) (x : id_batch)
  : outcome CLIPTextOutput :=
  let N := seq_len x in
  obind (argmax x) (fun eot_tokens =>
  obind (_embed self x) (fun x' =>
  let mask := create_additive_causal_mask N in
  let x' := run_layers (layers self) mask x' in
  let last_hidden := map (map (final_layer_norm self)) x' in
  obind (gather_rows last_hidden eot_tokens) (fun pooled =>
  Ok {| pooler_output := pooled; last_hidden_state := last_hidden |}))).

(** *** The joint model *)

(** A two-dimensional float array together with its shape. *)
Record matrix : Type := {
  n_rows : nat;
  n_cols : nat;
  entries : list vector
}.

Definition dot (u v : vector) : num := sum (zip_with mul u v).

Definition column (j : nat) (m : matrix) : vector :=
  map (fun row => nth j row zero) (entries m).

(** [m.T] *)
Definition transpose (m : matrix) : matrix :=
  {| n_rows := n_cols m;
     n_cols := n_rows m;
     entries := map (fun j => column j m) (seq 0 (n_cols m)) |}.

(** [a @ b], a shape error when the inner dimensions differ. *)
Definition matmul (a b : matrix) : outcome matrix :=
  if Nat.eqb (n_cols a) (n_rows b)
  then Ok {| n_rows := n_rows a;
             n_cols := n_cols b;
             entries :=
               map (fun row => map (fun j => dot row (column j b))
                                   (seq 0 (n_cols b)))
                   (entries a) |}
  else Raise ValueError.

(** [m * c] for a scalar array [c] *)
Definition scale (m : matrix) (c : num) : matrix :=
  {| n_rows := n_rows m;
     n_cols := n_cols m;
     entries := map (map (fun a => mul a c)) (entries m) |}.

(** [nn.Linear] without bias, of weight [w] of shape [(out, in)], on a
    batch of vectors: [x @ w.T]. *)
Definition linear (w : list vector) (x : list vector) : matrix :=
  {| n_rows := length x;
     n_cols := length w;
     entries := map (fun v => map (dot v) w) x |}.

(** [LA.norm(v, axis=-1)] on one row *)
Definition norm (v : vector) : num := sqrt (sum (map (fun a => mul a a) v)).

(** [m / LA.norm(m, axis=-1, keepdims=True)] *)
Definition normalize (m : matrix) : matrix :=
  {| n_rows := n_rows m;
     n_cols := n_cols m;
     entries := map (fun v => map (fun a => div a (norm v)) v) (entries m) |}.

Context `{!Memory}.

(** [row[i]] as [take_along_axis] reads it, without a bounds check. *)
Definition read_unchecked (row : vector) (i : nat) : num :=
  match row !! i with
  | Some v => v
  | None => stray_read row i
  end.

(** The loss of each row [i] of [rows] against target class [first + i]:
    [logsumexp(row) - row[target]]. *)
Fixpoint row_losses (first : nat) (rows : list vector) : list num :=
  match rows with
  | [] => []
  | row :: rows' =>
      sub (logsumexp row) (read_unchecked row first)
      :: row_losses (S first) rows'
  end.

(** [cross_entropy(logits, mx.arange(N), reduction="mean")] with [N]
    the number of rows of [logits].  MLX refuses to read the targets from
    an array without elements ([ValueError]). *)
Definition cross_entropy_diagonal (logits : matrix) : outcome num :=
  if (Nat.eqb (n_rows logits) 0 || Nat.eqb (n_cols logits) 0)%bool
  then Raise ValueError
  else Ok (mean (row_losses 0 (entries logits))).

(** [clip_loss] *)
Definition clip_loss (logits_per_text logits_per_image : matrix)
  : outcome num :=
  obind (cross_entropy_diagonal logits_per_text) (fun caption_loss =>
  obind (cross_entropy_diagonal logits_per_image) (fun image_loss =>
  Ok (div (add caption_loss image_loss) two))).

(** The two output dataclasses have the same fields. *)
Definition CLIPVisionOutput : Type := CLIPTextOutput.

(** pixel values, shape [(batch, height, width, channels)] *)
Definition pixel_batch : Type := list (list (list (list num))).

Record CLIPModel : Type := {
  text_model : CLIPTextModel;
  (** the forward pass of [self.vision_model]; the joint model reads
      nothing of it but its output *)
  vision_model : pixel_batch -> outcome CLIPVisionOutput;
  (** weights of shape [(projection_dim, hidden_size)] *)
  visual_projection : list vector;
  text_projection : list vector;
  logit_scale : num
}.

Record CLIPModelOutput : Type := {
  loss : option num;
  text_embeds : option matrix;
  image_embeds : option matrix;
  text_model_output : option CLIPTextOutput;
  vision_model_output : option CLIPVisionOutput
}.

(** Lines 368-370 *)
Definition logits_per_text (self : CLIPModel) (text image : matrix)
  : outcome matrix :=
  obind (matmul text (transpose image)) (fun m =>
    Ok (scale m (exp (logit_scale self)))).

Definition logits_per_image (per_text : matrix) : matrix :=
  transpose per_text.

(** [CLIPModel.__call__] *)
Definition CLIPModel_call (self : CLIPModel) (input_ids : option id_batch)
    (pixel_values : option pixel_batch) (return_loss : bool)
  : outcome CLIPModelOutput :=
  obind (match input_ids with
         | Some ids =>
             obind (CLIPTextModel_call (text_model self) ids) (fun out =>
               Ok (Some (normalize (linear (text_projection self)
                                           (pooler_output out))),
                   Some out))
         | None => Ok (None, None)
         end) (fun '(text, text_out) =>
  obind (match pixel_values with
         | Some pixels =>
             obind (vision_model self pixels) (fun out =>
               Ok (Some (normalize (linear (visual_projection self)
                                           (pooler_output out))),
                   Some out))
         | None => Ok (None, None)
         end) (fun '(image, image_out) =>
  obind (match text, image with
         | Some text, Some image =>
             obind (logits_per_text self text image) (fun per_text =>
               let per_image := logits_per_image per_text in
               if return_loss
               then obind (clip_loss per_text per_image) (fun l =>
                      Ok (Some l))
               else Ok None)
         | _, _ => Ok None
         end) (fun l =>
  Ok {| loss := l;
        text_embeds := text;
        image_embeds := image;
        text_model_output := text_out;
        vision_model_output := image_out |}))).
End Model.

(** ** Small models for worked examples *)

(** A text encoder over the free scalars with hidden size 1, [P] learned
    positions, one layer that leaves its input as it is, and a final layer
    norm that does the same. *)
Definition example_text_model (P : nat) : CLIPTextModel :=
  {| token_embedding := fun id => [SLit id];
     position_embedding := map (fun p => [SLit (100 + Z.of_nat p)]) (seq 0 P);
     layers := [fun x _ => x];
     final_layer_norm := fun v => v |}.

Definition example_ids : id_batch :=
  {| seq_len := 3; id_rows := [[6; 5; 7]; [6; 7; 0]]%Z |}.

(** A batch of two sequences of a single token. *)
Definition example_ids_single : id_batch :=
  {| seq_len := 1; id_rows := [[6]; [7]]%Z |}.

(** ** Shapes, positions and masks *)

Section ModelPredicates.
Context `{Scalar}.

(** A layer returns hidden states of the shape it was given: as many
    sequences, each as long as before. *)
Definition keeps_shape (l : layer) : Prop :=
  forall x mask, map length (l x mask) = map length x.

(** [p] is the first position of the largest entry of [row]. *)
Definition first_max_at (row : list Z) (p : nat) : Prop :=
  exists m,
    row !! p = Some m /\
    (forall j v, row !! j = Some v -> (v <= m)%Z) /\
    (forall j v, (j < p)%nat -> row !! j = Some v -> (v < m)%Z).







(** The entries of a matrix agree with the shape it carries. *)
Definition well_shaped (m : matrix) : Prop :=
  length (entries m) = n_rows m /\
  Forall (fun row => length row = n_cols m) (entries m).
End ModelPredicates.

(** ** More worked examples *)

(** A joint model over the free scalars, of projection dimension 2, whose
    vision encoder pools the first channel of the first pixel of each
    image. *)
Definition example_vision (pixels : list (list (list (list sym))))
  : outcome CLIPTextOutput :=
  Ok {| pooler_output := map (fun image => take 1 (concat (concat image)))
                             pixels;
        last_hidden_state := [] |}.

Definition example_model : CLIPModel :=
  {| text_model := example_text_model 4;
     vision_model := example_vision;
     visual_projection := [[SLit 1]; [SLit 2]];
     text_projection := [[SLit 3]; [SLit 4]];
     logit_scale := SLit 5 |}.

Definition example_pixels : list (list (list (list sym))) :=
  [ [[[SLit 8]]]; [[[SLit 9]]] ].

(** Three images, one more than [example_ids] has sequences. *)
Definition example_pixels_three : list (list (list (list sym))) :=
  [ [[[SLit 8]]]; [[[SLit 9]]]; [[[SLit 4]]] ].

Definition example_image_out_three : CLIPTextOutput :=
  {| pooler_output := [[SLit 8]; [SLit 9]; [SLit 4]];
     last_hidden_state := [] |}.

Definition example_image_out : CLIPTextOutput :=
  {| pooler_output := [[SLit 8]; [SLit 9]]; last_hidden_state := [] |}.

Definition example_text_out : CLIPTextOutput :=
  {| pooler_output :=
       [[SAdd (SLit 7) (SLit 102)]; [SAdd (SLit 7) (SLit 101)]];
     last_hidden_state :=
       [[[SAdd (SLit 6) (SLit 100)]; [SAdd (SLit 5) (SLit 101)];
         [SAdd (SLit 7) (SLit 102)]];
        [[SAdd (SLit 6) (SLit 100)]; [SAdd (SLit 7) (SLit 101)];
         [SAdd (SLit 0) (SLit 102)]]] |}.

(** A layer over the free scalars that consults its mask as additive
    attention does: the output at a position is the sum of the input
    there and of the inputs at the positions whose mask entry is not the
    blocking value; where the mask row blocks every position, of the
    inputs at all positions. *)
Definition is_blocked (m : sym) : bool :=
  match m with
  | SLit z => Z.eqb z (-1000000000)
  | _ => false
  end.

Fixpoint open_states (mask_row : list sym) (states : list (list sym))
  : list (list sym) :=
  match mask_row, states with
  | m :: mask_row', s :: states' =>
      if is_blocked m then open_states mask_row' states'
      else s :: open_states mask_row' states'
  | _, _ => []
  end.

Definition attended (mask_row : list sym) (states : list (list sym))
  : list (list sym) :=
  match open_states mask_row states with
  | [] => states
  | seen => seen
  end.

Definition attention_layer : layer :=
  fun x mask =>
    map (fun states =>
           imap (fun i own =>
                   [SSum (own ++ concat (attended (nth i mask []) states))])
                states)
        x.

Definition example_causal_model : CLIPTextModel :=
  {| token_embedding := fun id => [SLit id];
     position_embedding := map (fun p => [SLit (100 + Z.of_nat p)]) (seq 0 4);
     layers := [attention_layer; attention_layer];
     final_layer_norm := fun v => v |}.


(** ** The logits as the specification words them

    These definitions follow the specification's words, "matrix product"
    and "normalized embeddings", not the source; [joint_logits_and_loss]
    relates them to what the forward pass computes. *)

Section JointSpec.
Context `{Scalar}.

(** An entry of a matrix product: the sum over [k] of [u_k * v_k], [k]
    ranging over the positions the two vectors have. *)
Definition inner_product (u v : vector) : num :=
  sum (map (fun k => mul (nth k u zero) (nth k v zero))
           (seq 0 (min (length u) (length v)))).

(** A linear projection without bias, of weights [w] of shape
    [(out, in)]: output [o] is the inner product of the input with row
    [o] of the weights. *)
Definition projected (w : list vector) (x : vector) : vector :=
  map (fun row => inner_product x row) w.

(** "Normalized": the vector divided by its L2 norm, the square root of
    the sum of its squared entries. *)
Definition l2_normalized (v : vector) : vector :=
  map (fun a => div a (sqrt (inner_product v v))) v.

(** The normalized embeddings of a batch of pooled vectors, one row for
    each. *)
Definition embeddings (w : list vector) (pooled : list vector) : matrix :=
  {| n_rows := length pooled;
     n_cols := length w;
     entries := map (fun x => l2_normalized (projected w x)) pooled |}.
End JointSpec.

(** * Further parts of the tokenizer *)

(** [''.join(pieces)] *)
Fixpoint str_concat (pieces : list string) : string :=
  match pieces with
  | [] => EmptyString
  | p :: pieces' => p +:+ str_concat pieces'
  end.


(** No two pairs of the merge table share a rank. *)
Definition distinct_ranks (ranks : gmap bigram Z) : Prop :=
  forall p q r, ranks !! p = Some r -> ranks !! q = Some r -> p = q.

Section TokenizerState.
Context `{PySet}.

(** The cache of an object is sound: it still holds the two seeded
    markers, and what it holds for a text is what [bpe] returns for that
    text on a tokenizer fresh from [__init__] with the same tables. *)
Definition sound (self : CLIPTokenizer) : Prop :=
  _cache self !! bos = Some (PyStr bos) /\
  _cache self !! eos = Some (PyStr eos) /\
  forall text cached,
    _cache self !! text = Some cached ->
    fst (bpe text (init (bpe_ranks self) (vocab self))) = Ok cached.

Context `{UnicodeTables}.

(** The comprehension of line 91: [[self.tokenize(t, ...) for t in text]] *)
Fixpoint tokenize_each (texts : list string) (prepend_bos append_eos : bool)
  : M (list (list Z)) :=
  match texts with
  | [] => ret []
  | t :: texts' =>
      do row <- tokenize t prepend_bos append_eos;
      do rows <- tokenize_each texts' prepend_bos append_eos;
      ret (row :: rows)
  end.

(** All rows are as long as the first. *)
Definition same_lengths (rows : list (list Z)) : bool :=
  match rows with
  | [] => true
  | row :: rows' =>
      forallb (fun r => Nat.eqb (length r) (length row)) rows'
  end.

(** [CLIPTokenizer.tokenize] on a list of strings (lines 90-91):
    [mx.array] stacks the rows, and refuses rows of different lengths. *)
Definition tokenize_list (texts : list string) (prepend_bos append_eos : bool)
  : M (list (list Z)) :=
  do rows <- tokenize_each texts prepend_bos append_eos;
  if same_lengths rows then ret rows
  else fun self => (Raise ValueError, self).
End TokenizerState.

(** [mx.array(tokens)] (line 109) makes an array of 32-bit integers of a
    list of Python integers; [tokenize] of the model returns the list it
    is given.  An id is held as it is when it is a 32-bit signed
    integer. *)
Definition int32 (id : Z) : Prop := (-2147483648 <= id <= 2147483647)%Z.

Definition ids_fit (vocabulary : gmap string Z) : Prop :=
  forall k id, vocabulary !! k = Some id -> int32 id.

(** The array of a non-empty list of rows of one length, as the text
    encoder receives it. *)
Definition as_id_batch (rows : list (list Z)) : id_batch :=
  {| seq_len := match rows with
                | [] => 0
                | row :: _ => length row
                end;
     id_rows := rows |}.

(** ** Loading the merge table ([from_pretrained], lines 123-126) *)

(** [lines[1 : 49152 - 256 - 2 + 1]]: the first line is passed over, and
    at most 48894 lines are kept. *)
Definition merges_slice {A} (lines : list A) : list A :=
  take (Z.to_nat (49152 - 256 - 2 + 1) - 1) (drop 1 lines).

(** [dict(map(reversed, enumerate(bpe_merges)))], read at pairs.  Each
    merge is the tuple of the words of its line; a later line with the
    same tuple overwrites the rank of an earlier one.  A tuple that is not
    a pair is a key no lookup of [bpe] can hit, so it is left out of the
    table (its index is still counted). *)
Fixpoint ranks_from (i : nat) (merges : list (list string))
    (table : gmap bigram Z) : gmap bigram Z :=
  match merges with
  | [] => table
  | [a; b] :: merges' => ranks_from (S i) merges' (<[(a, b) := Z.of_nat i]> table)
  | _ :: merges' => ranks_from (S i) merges' table
  end.

Definition build_ranks (merges : list (list string)) : gmap bigram Z :=
  ranks_from 0 merges ∅.

(** [CLIPTokenizer.from_pretrained] past the reading of the two files:
    [vocabulary] is the parsed [vocab.json], [lines] the lines of the
    stripped [merges.txt], each split into its words. *)
Definition from_pretrained (vocabulary : gmap string Z)
    (lines : list (list string)) : CLIPTokenizer :=
  init (build_ranks (merges_slice lines)) vocabulary.

Section StateRelations.
Context `{PySet}.

(** A call is transparent to the cache: on a sound object it leaves a
    sound object with the same tables, and its outcome is the same on
    every sound object with those tables. *)
Definition transparent {A} (m : M A) : Prop :=
  forall s, sound s ->
    sound (snd (m s)) /\
    bpe_ranks (snd (m s)) = bpe_ranks s /\
    vocab (snd (m s)) = vocab s /\
    forall s', sound s' -> bpe_ranks s' = bpe_ranks s -> vocab s' = vocab s ->
               fst (m s') = fst (m s).

(** Between two states of an object the tables are the same and the cache
    has only grown, by entries for texts among [texts], each of two or
    more characters and holding a list. *)
Definition grown_by (texts : list string) (s s' : CLIPTokenizer) : Prop :=
  bpe_ranks s' = bpe_ranks s /\
  vocab s' = vocab s /\
  forall k,
    _cache s' !! k = _cache s !! k \/
    (_cache s !! k = None /\ k ∈ texts /\ (2 <= String.length k)%nat /\
     exists pieces, _cache s' !! k = Some (PyList pieces)).

(** Every call of [m] leaves the object grown by entries for [texts]. *)
Definition grows {A} (texts : list string) (m : M A) : Prop :=
  forall s, grown_by texts s (snd (m s)).
End StateRelations.

(** A second iteration order for sets: the reverse of first-seen order. *)
#[export] Program Instance last_seen_set : PySet | 10 := {|
  set_iter := fun l => reverse (remove_dups l)
|}.
Next Obligation.
  intros l x. rewrite elem_of_reverse. apply elem_of_remove_dups.
Qed.

(** The ids of a list of sub-tokens in a vocabulary, or the [KeyError] of
    the first sub-token the vocabulary does not hold. *)
Fixpoint lookup_ids (vocabulary : gmap string Z) (sub_tokens : list string)
  : outcome (list Z) :=
  match sub_tokens with
  | [] => Ok []
  | t :: sub_tokens' =>
      match vocabulary !! t with
      | Some i => obind (lookup_ids vocabulary sub_tokens')
                        (fun more => Ok (i :: more))
      | None => Raise (KeyError t)
      end
  end.




(** * Further parts of the model *)

Section ModelExtras.
Context `{Scalar}.

(** [CLIPModel.get_text_features] *)
Definition get_text_features (self : CLIPModel) (x : id_batch)
  : outcome matrix :=
  obind (CLIPTextModel_call (text_model self) x) (fun out =>
    Ok (linear (text_projection self) (pooler_output out))).

(** [CLIPModel.get_image_features] *)
Definition get_image_features (self : CLIPModel) (x : pixel_batch)
  : outcome matrix :=
  obind (vision_model self x) (fun out =>
    Ok (linear (visual_projection self) (pooler_output out))).

(** An encoder, run on the input when there is one, returns the output;
    without input there is no output. *)
Definition encoded {A B} (run : A -> outcome B) (input : option A)
    (output : option B) : Prop :=
  match input, output with
  | Some a, Some b => run a = Ok b
  | None, None => True
  | _, _ => False
  end.

(** What is assumed of an encoder layer of [mlx.nn] for the independence
    of the sequences of a batch: whatever the mask, what the layer returns
    for the sequence at an index is determined by the sequence it is
    given at that index. *)
Definition acts_per_sequence (l : layer) : Prop :=
  forall mask (x y : hidden) b, x !! b = y !! b -> l x mask !! b = l y mask !! b.
End ModelExtras.

(** A batch that shares its first sequence with [example_ids] and has two
    other sequences after it. *)
Definition example_ids_other : id_batch :=
  {| seq_len := 3; id_rows := [[6; 5; 7]; [1; 2; 3]; [4; 4; 9]]%Z |}.

(** ** The vision encoder *)

(** The output of the patch convolution: an array of shape
    [(batch, grid_height, grid_width, hidden_size)]. *)
Record patch_grid `{Scalar} : Type := {
  grid_height : nat;
  grid_width : nat;
  patches : list (list (list (list num)))
}.

Module Vision.
Section Encoder.
Context `{Scalar}.

Record CLIPVisionModel : Type := {
  class_embedding : vector;
  (** [nn.Conv2d] with kernel and stride [patch_size], no bias; it
      returns one grid of patch vectors for every image *)
  patch_embedding : pixel_batch -> patch_grid;
  (** the table of shape [(num_patches + 1, hidden_size)] *)
  position_embedding : list vector;
  pre_layernorm : vector -> vector;
  (** the encoder layers, each as called with [mask=None] *)
  layers : list (hidden -> hidden);
  post_layernorm : vector -> vector
}.

(** [CLIPVisionModel._embed] *)
Definition _embed (self : CLIPVisionModel) (x : pixel_batch)
  : outcome hidden :=
  let grid := patch_embedding self x in
  (* flatten the two grid axes *)
  let patch_embeddings := map (fun image => concat image) (patches grid) in
  let num_patches := (grid_height grid * grid_width grid)%nat in
  (* the class embedding in front of every sequence *)
  let embeddings :=
    map (fun p => class_embedding self :: p) patch_embeddings in
  obind (broadcast_len (S num_patches) (length (position_embedding self)))
    (fun _ =>
       Ok (map (fun e => broadcast_add e (position_embedding self))
               embeddings)).

(** [x[:, 0, :]]: the first position of every sequence.  The model stops
    with an error on a sequence without positions. *)
Fixpoint first_positions (x : hidden) : outcome (list vector) :=
  match x with
  | [] => Ok []
  | states :: x' =>
      match states with
      | [] => Raise IndexError
      | first :: _ =>
          obind (first_positions x') (fun rest => Ok (first :: rest))
      end
  end.

(** [CLIPVisionModel.__call__] *)
Definition call (self : CLIPVisionModel) (x : pixel_batch)
  : outcome CLIPVisionOutput :=
  obind (_embed self x) (fun x' =>
  let x' := map (map (pre_layernorm self)) x' in
  let x' := fold_left (fun x l => l x) (layers self) x' in
  obind (first_positions x') (fun cls =>
  Ok {| pooler_output := map (post_layernorm self) cls;
        last_hidden_state := x' |})).

(** A grid is well formed: every image has [grid_height] rows of
    [grid_width] patch vectors. *)
Definition well_formed (grid : patch_grid) : Prop :=
  Forall (fun image =>
            length image = grid_height grid /\
            Forall (fun row => length row = grid_width grid) image)
         (patches grid).

(** A layer called without mask returns hidden states of the shape it
    was given. *)
Definition keeps_shape (l : hidden -> hidden) : Prop :=
  forall x, map length (l x) = map length x.
End Encoder.
End Vision.

(** A vision encoder over the free scalars: the convolution stand-in cuts
    every image into a grid of one row of two patches, the patch vector
    being the first pixel row of the image; three positions; one layer
    that reverses every vector. *)
Definition example_vision_model : Vision.CLIPVisionModel :=
  {| Vision.class_embedding := [SLit 50];
     Vision.patch_embedding := fun x =>
       {| grid_height := 1; grid_width := 2;
          patches := map (fun image =>
                            [[concat (concat (take 1 image));
                              concat (concat (take 1 image))]]) x |};
     Vision.position_embedding := [[SLit 100]; [SLit 101]; [SLit 102]];
     Vision.pre_layernorm := fun v => v;
     Vision.layers := [fun x => map (map reverse) x];
     Vision.post_layernorm := fun v => v |}.

(** The same encoder with a position table for one patch only. *)
Definition example_vision_short : Vision.CLIPVisionModel :=
  {| Vision.class_embedding := Vision.class_embedding example_vision_model;
     Vision.patch_embedding := Vision.patch_embedding example_vision_model;
     Vision.position_embedding := [[SLit 100]; [SLit 101]];
     Vision.pre_layernorm := Vision.pre_layernorm example_vision_model;
     Vision.layers := Vision.layers example_vision_model;
     Vision.post_layernorm := Vision.post_layernorm example_vision_model |}.
(** * Properties *)

(** ** The coarse split *)

Section PatternFacts.
Context `{UnicodeTables}.

Lemma literal_nonempty a p s m :
  literal (String a p) s = Some m -> m <> EmptyString.
Proof.
  destruct s as [|c s']; simpl; [discriminate|].
  destruct (ci_eqb a c); [|discriminate].
  destruct (literal p s'); [|discriminate].
  intros [= <-]. discriminate.
Qed.

Lemma run_nonempty p s m : run p s = Some m -> m <> EmptyString.
Proof.
  unfold run. destruct (take_while p s); [discriminate|].
  intros [= <-]. discriminate.
Qed.

Lemma single_nonempty p s m : single p s = Some m -> m <> EmptyString.
Proof.
  destruct s as [|c s']; simpl; [discriminate|].
  destruct (p c); [|discriminate]. intros [= <-]. discriminate.
Qed.

Lemma orelse_Some {A} (a b : option A) m :
  orelse a b = Some m -> a = Some m \/ b = Some m.
Proof. destruct a; simpl; auto. Qed.

(** No alternative of the pattern matches the empty string. *)
Lemma pat_nonempty s m : pat s = Some m -> m <> EmptyString.
Proof.
  unfold pat. intros Hm.
  repeat (apply orelse_Some in Hm as [Hm|Hm];
          [ first [ exact (literal_nonempty _ _ _ _ Hm)
                  | exact (run_nonempty _ _ _ Hm)
                  | exact (single_nonempty _ _ _ Hm) ] | ]).
  exact (run_nonempty _ _ _ Hm).
Qed.

Lemma findall_from_nonempty s : forall inside t,
  t ∈ findall_from inside s -> t <> EmptyString.
Proof.
  induction s as [|c r IH]; intros inside t; simpl.
  - intros Hin. inversion Hin.
  - destruct inside as [|k]; [|apply IH].
    destruct (pat (String c r)) as [m|] eqn:Hpat; [|apply IH].
    intros [->|Hin]%elem_of_cons; [exact (pat_nonempty _ _ Hpat)|].
    exact (IH _ _ Hin).
Qed.

(** Every coarse token has at least one character. *)
Lemma coarse_tokens_nonempty text t :
  t ∈ coarse_tokens text -> t <> EmptyString.
Proof. apply findall_from_nonempty. Qed.

Lemma str_lower_spaces text :
  str_forallb is_space text = true ->
  str_forallb is_space (str_lower text) = true.
Proof.
  induction text as [|c r IH]; simpl; [done|].
  intros [Hc Hr]%andb_true_iff. rewrite is_space_lower, Hc. simpl. auto.
Qed.

Lemma sub_spaces_in_run s :
  str_forallb is_space s = true -> sub_spaces true s = EmptyString.
Proof.
  induction s as [|c r IH]; simpl; [done|].
  intros [Hc Hr]%andb_true_iff. rewrite Hc. auto.
Qed.

(** A text of white space only is cleaned to nothing or to one blank. *)
Lemma sub_spaces_blank s :
  str_forallb is_space s = true ->
  sub_spaces false s = EmptyString \/ sub_spaces false s = " ".
Proof.
  destruct s as [|c r]; simpl; [auto|].
  intros [Hc Hr]%andb_true_iff. rewrite Hc, sub_spaces_in_run by done.
  auto.
Qed.

Lemma pat_blank : pat " " = None.
Proof.
  pose proof is_space_blank as Hs.
  unfold pat, run, single, is_other; simpl.
  rewrite (is_space_letter _ Hs), (is_space_number _ Hs), Hs. simpl.
  repeat match goal with
         | |- context [ci_eqb ?a ?b] => destruct (ci_eqb a b); simpl
         end; reflexivity.
Qed.

(** The pattern finds no token in the empty string or in white space. *)
Lemma coarse_tokens_spaces text :
  str_forallb is_space text = true -> coarse_tokens text = [].
Proof.
  intros Hsp%str_lower_spaces. unfold coarse_tokens, findall.
  destruct (sub_spaces_blank _ Hsp) as [-> | ->]; [reflexivity|].
  simpl findall_from. rewrite pat_blank. reflexivity.
Qed.
End PatternFacts.

(** The split on a sentence: lower-casing, a contraction, single digits, a
    run of other characters that swallows the start of a marker, and a
    marker on its own. *)
Example coarse_tokens_sentence :
  coarse_tokens "A photo of  Bob's 12 cats!!<|endoftext|> <|ENDOFTEXT|>"
  = ["a"; "photo"; "of"; "bob"; "'s"; "1"; "2"; "cats"; "!!<|";
     "endoftext"; "|>"; "<|endoftext|>"].
Proof. reflexivity. Qed.

(** ** The merge loop *)

Lemma key_ltb_irrefl a : key_ltb a a = false.
Proof. destruct a; simpl; [apply Z.ltb_irrefl|reflexivity]. Qed.

Lemma key_ltb_chain a b c :
  key_ltb a b = false -> key_ltb b c = false -> key_ltb a c = false.
Proof.
  destruct a, b, c; simpl; try done.
  rewrite !Z.ltb_ge. lia.
Qed.

Lemma key_ltb_weaken a b : key_ltb a b = true -> key_ltb b a = false.
Proof.
  destruct a, b; simpl; try done.
  rewrite Z.ltb_lt, Z.ltb_ge. lia.
Qed.

(** [min] returns an item of the iterable... *)
Lemma py_min_elem {A} (key : A -> rank_key) rest : forall best,
  py_min key best rest ∈ best :: rest.
Proof.
  induction rest as [|x rest IH]; intros best; simpl.
  - apply elem_of_cons; by left.
  - destruct (key_ltb (key x) (key best)).
    + apply elem_of_cons; right. apply IH.
    + specialize (IH best). rewrite !elem_of_cons in *. tauto.
Qed.

(** ... below which no item's key lies. *)
Lemma py_min_lowest {A} (key : A -> rank_key) rest : forall best x,
  x ∈ best :: rest ->
  key_ltb (key x) (key (py_min key best rest)) = false.
Proof.
  induction rest as [|y rest IH]; intros best x Hx; simpl.
  - apply list_elem_of_singleton in Hx as ->. apply key_ltb_irrefl.
  - assert (Hhere : forall b, b ∈ b :: rest) by (intros; apply elem_of_cons; by left).
    destruct (key_ltb (key y) (key best)) eqn:Hlt.
    + apply elem_of_cons in Hx as [->|Hx]; [|by apply IH].
      eapply key_ltb_chain; [apply key_ltb_weaken, Hlt|].
      apply IH, Hhere.
    + apply elem_of_cons in Hx as [->|Hx]; [apply IH, Hhere|].
      apply elem_of_cons in Hx as [->|Hx].
      * eapply key_ltb_chain; [exact Hlt|]. apply IH, Hhere.
      * apply IH. apply elem_of_cons; by right.
Qed.

Lemma bigrams_cons x y l : bigrams (x :: y :: l) = (x, y) :: bigrams (y :: l).
Proof. reflexivity. Qed.

Lemma bigrams_nil_inv u : bigrams u = [] -> (length u <= 1)%nat.
Proof. destruct u as [|x [|y l]]; simpl; [lia|lia|discriminate]. Qed.

(** The pairs the source zips are the adjacent pairs of the sequence. *)
Lemma adjacent_bigrams unigrams p : adjacent unigrams p <-> p ∈ bigrams unigrams.
Proof.
  destruct p as [a b]. split.
  - intros (before & after & ->). simpl.
    induction before as [|x before IH]; [apply elem_of_cons; by left|].
    destruct before as [|y before]; simpl in *;
      rewrite bigrams_cons; apply elem_of_cons; by right.
  - induction unigrams as [|x [|y l] IH]; [by intros ?%elem_of_nil|
      by intros ?%elem_of_nil|].
    rewrite bigrams_cons. intros [[= -> ->]|Hin]%elem_of_cons.
    + by exists [], l.
    + destruct (IH Hin) as (before & after & E). simpl in E.
      exists (x :: before), after. simpl. by rewrite E.
Qed.

Lemma no_adjacent unigrams :
  bigrams unigrams = [] -> forall p, ~ adjacent unigrams p.
Proof.
  intros E p Hp%adjacent_bigrams. rewrite E in Hp.
  by apply elem_of_nil in Hp.
Qed.

Lemma merge_occurrences_cons target a b rest :
  merge_occurrences target (a :: b :: rest)
  = if pair_eqb (a, b) target
    then (a +:+ b) :: merge_occurrences target rest
    else a :: merge_occurrences target (b :: rest).
Proof. reflexivity. Qed.

(** What the loop leaves in [new_unigrams], together with the trailing
    [append(b)], on the pairs of [x :: l]: the one-pass merge of [x :: l],
    or of [l] when [x] has just been consumed by a merge. *)
Lemma merge_for_spec target l : forall x acc skip,
  l <> [] ->
  (let '(new_unigrams, skip') :=
     merge_for target (bigrams (x :: l)) acc skip in
   if skip' then Ok new_unigrams
   else match last (bigrams (x :: l)) with
        | Some (_, b) => Ok (new_unigrams ++ [b])
        | None => Raise UnboundLocalError
        end)
  = Ok (acc ++ if skip then merge_occurrences target l
               else merge_occurrences target (x :: l)).
Proof.
  induction l as [|y l IH]; intros x acc skip Hne; [done|].
  destruct l as [|z l].
  - (* the last pair *)
    simpl. destruct skip; simpl; [reflexivity|].
    unfold pair_eqb. destruct (bool_decide ((x, y) = target)); simpl;
      [reflexivity|].
    by rewrite <- app_assoc.
  - rewrite bigrams_cons.
    assert (Hlast : last ((x, y) :: bigrams (y :: z :: l))
                    = last (bigrams (y :: z :: l))) by reflexivity.
    rewrite Hlast. clear Hlast.
    cbn [merge_for]. destruct skip.
    + rewrite IH by done. reflexivity.
    + rewrite (merge_occurrences_cons target x y).
      destruct (pair_eqb (x, y) target).
      * rewrite IH by done. by rewrite <- app_assoc.
      * rewrite IH by done. by rewrite <- app_assoc.
Qed.

(** On a sequence that has a bigram, the pass of the source is the pass of
    the specification. *)
Lemma merge_pass_spec target unigrams :
  bigrams unigrams <> [] ->
  merge_pass target unigrams = Ok (merge_occurrences target unigrams).
Proof.
  destruct unigrams as [|x [|y l]]; [done|done|]. intros _.
  unfold merge_pass. apply (merge_for_spec target (y :: l) x [] false). done.
Qed.

Lemma merge_occurrences_length target : forall n unigrams,
  (length unigrams <= n)%nat ->
  (length (merge_occurrences target unigrams) <= length unigrams)%nat /\
  (target ∈ bigrams unigrams ->
   (length (merge_occurrences target unigrams) < length unigrams)%nat).
Proof.
  induction n as [|n IH]; intros [|x [|y l]] Hn; simpl in Hn;
    try (split; [simpl; lia|intros Hin; inversion Hin]); try lia.
  destruct (IH l ltac:(lia)) as [IHl _].
  destruct (IH (y :: l) ltac:(simpl; lia)) as [IHyl IHyl'].
  rewrite bigrams_cons, merge_occurrences_cons.
  unfold pair_eqb. case_bool_decide as Heq; cbn [length] in *.
  - split; [lia|]. intros _. lia.
  - split; [lia|]. intros [?|Hin]%elem_of_cons; [congruence|].
    specialize (IHyl' Hin). lia.
Qed.

Lemma chars_length s : length (chars s) = String.length s.
Proof. induction s; simpl; auto. Qed.

Lemma but_last_length c s :
  length (chars (but_last (String c s))) = String.length s.
Proof.
  revert c. induction s as [|c' s IH]; intros c; [reflexivity|].
  change (length (chars (but_last (String c (String c' s)))))
    with (S (length (chars (but_last (String c' s))))).
  by rewrite IH.
Qed.

Lemma last_char_cons c s : exists d, last_char (String c s) = Ok d.
Proof.
  revert c. induction s as [|c' s IH]; intros c; [by exists c|].
  destruct (IH c') as [d Hd]. exists d. exact Hd.
Qed.

(** A non-empty token has as many unigrams as characters. *)
Lemma unigrams_of_nonempty text :
  (1 <= String.length text)%nat ->
  exists unigrams,
    unigrams_of text = Ok unigrams /\ length unigrams = String.length text.
Proof.
  destruct text as [|c s]; simpl String.length; [lia|]. intros _.
  unfold unigrams_of. destruct (last_char_cons c s) as [d ->].
  eexists; split; [reflexivity|].
  rewrite length_app, but_last_length. simpl. lia.
Qed.

Lemma unigrams_of_empty : unigrams_of "" = Raise IndexError.
Proof. reflexivity. Qed.

Section BpeFacts.
Context `{PySet}.

Lemma set_iter_nil_iff l : set_iter l = [] <-> l = [].
Proof.
  split; intros Hl; apply elem_of_nil_inv; intros x Hx.
  - apply (proj2 (set_iter_elem l x)) in Hx.
    rewrite Hl in Hx. by apply elem_of_nil in Hx.
  - apply (proj1 (set_iter_elem l x)) in Hx.
    subst l. by apply elem_of_nil in Hx.
Qed.

(** The pair [min] picks from the set is a lowest-ranked present pair. *)
Lemma selected_lowest ranks unigrams first others :
  set_iter (bigrams unigrams) = first :: others ->
  lowest_rank ranks unigrams (py_min (rank_of ranks) first others).
Proof.
  intros Hset. split.
  - apply adjacent_bigrams, set_iter_elem. rewrite Hset. apply py_min_elem.
  - intros p r Hp%adjacent_bigrams%set_iter_elem Hr. rewrite Hset in Hp.
    pose proof (py_min_lowest (rank_of ranks) others first p Hp) as Hlow.
    unfold rank_of in Hlow at 1 2. rewrite Hr in Hlow.
    destruct (ranks !! py_min (rank_of ranks) first others) as [r'|];
      simpl in Hlow; [|discriminate Hlow].
    exists r'. split; [done|]. apply Z.ltb_ge in Hlow. lia.
Qed.

(** The loop of the source terminates within [length unigrams] merges
    and computes what the specification describes. *)
Lemma bpe_loop_spec ranks : forall fuel unigrams,
  (length unigrams <= fuel)%nat ->
  exists final,
    bpe_loop ranks fuel unigrams = Ok final /\
    merges_to ranks unigrams final.
Proof.
  induction fuel as [|fuel IH]; intros unigrams Hlen.
  - destruct unigrams; [|simpl in Hlen; lia].
    exists []. pose proof (proj2 (set_iter_nil_iff (bigrams [])) eq_refl) as E.
    cbn [bpe_loop]. rewrite E.
    split; [reflexivity|]. by apply merges_none, no_adjacent.
  - simpl. destruct (set_iter (bigrams unigrams)) as [|first others] eqn:Hset.
    { exists unigrams. split; [reflexivity|].
      apply merges_none, no_adjacent.
      by apply (proj1 (set_iter_nil_iff _)). }
    pose proof (selected_lowest ranks unigrams first others Hset) as Hlow.
    set (best := py_min (rank_of ranks) first others) in *.
    destruct (ranks !! best) as [r|] eqn:Hrank.
    + assert (Hne : bigrams unigrams <> []).
      { intros E. apply (proj2 (set_iter_nil_iff _)) in E. congruence. }
      rewrite (merge_pass_spec best unigrams Hne). simpl obind.
      destruct (merge_occurrences_length best _ unigrams (le_n _))
        as [_ Hshrink].
      specialize (Hshrink (proj1 (adjacent_bigrams _ _) (proj1 Hlow))).
      destruct (IH (merge_occurrences best unigrams) ltac:(lia))
        as (final & Hrun & Hspec).
      exists final. split; [exact Hrun|].
      by eapply merges_step.
    + exists unigrams. split; [reflexivity|]. by eapply merges_stop.
Qed.

Lemma bpe_hit self text cached :
  _cache self !! text = Some cached -> bpe text self = (Ok cached, self).
Proof. intros Hc. unfold bpe. by rewrite Hc. Qed.

(** What [bpe] does on a text that is not in the cache. *)
Lemma bpe_miss self text :
  _cache self !! text = None ->
  (text = EmptyString /\ bpe text self = (Raise IndexError, self)) \/
  (exists unigrams,
      unigrams_of text = Ok unigrams /\ bigrams unigrams = [] /\
      String.length text = 1%nat /\
      bpe text self = (Ok (PyList unigrams), self)) \/
  (exists unigrams final,
      unigrams_of text = Ok unigrams /\ bigrams unigrams <> [] /\
      (2 <= String.length text)%nat /\
      merges_to (bpe_ranks self) unigrams final /\
      bpe text self
      = (Ok (PyList final),
         set_cache text (PyList final) (enter_loop self))).
Proof.
  intros Hc. unfold bpe. rewrite Hc.
  destruct text as [|c s]; [left; by split|]. right.
  destruct (unigrams_of_nonempty (String c s)) as (u & Hu & Hlen);
    [simpl; lia|].
  rewrite Hu.
  destruct (set_iter (bigrams u)) as [|first others] eqn:Hset.
  - left. exists u. apply (proj1 (set_iter_nil_iff _)) in Hset.
    repeat split; try done.
    pose proof (bigrams_nil_inv u Hset). simpl in *. lia.
  - right.
    destruct (bpe_loop_spec (bpe_ranks self) (length u) u (le_n _))
      as (final & Hrun & Hspec).
    rewrite Hrun. exists u, final.
    assert (Hne : bigrams u <> []).
    { intros E. apply (proj2 (set_iter_nil_iff _)) in E. congruence. }
    repeat split; try done.
    destruct u as [|x [|y l]]; try done. simpl in *. lia.
Qed.
End BpeFacts.

(** One pass merges the non-overlapping occurrences from the left: of
    three ["a"] in a row the first two are merged and the third is left. *)
Example merge_pass_overlap :
  merge_pass ("a", "a") ["a"; "a"; "a"; "b"; "a"; "a"]
  = Ok ["aa"; "a"; "b"; "aa"].
Proof. reflexivity. Qed.

(** ** Memoization *)

Lemma extends_refl s : extends s s.
Proof. split; [reflexivity|]. intros k. by left. Qed.

Lemma extends_trans s1 s2 s3 : extends s1 s2 -> extends s2 s3 -> extends s1 s3.
Proof.
  intros [Hv12 Hc12] [Hv23 Hc23]. split; [congruence|]. intros k.
  destruct (Hc23 k) as [E23|[E23 Hlen]], (Hc12 k) as [E12|[E12 Hlen']].
  - left. congruence.
  - right. split; [done|lia].
  - right. split; [congruence|done].
  - right. split; [done|lia].
Qed.

Lemma replays_ret {A} (a : A) : replays (ret a).
Proof.
  intros s o s' [= <- <-]. split; [apply extends_refl|]. reflexivity.
Qed.

Lemma replays_bind {A B} (m : M A) (k : A -> M B) :
  replays m -> (forall a, replays (k a)) -> replays (bind m k).
Proof.
  intros Hm Hk s o s'. unfold bind.
  destruct (m s) as [[a|e|] s1] eqn:Hms; intros Hrun;
    destruct (Hm _ _ _ Hms) as [Hext Hagain].
  - destruct (Hk a _ _ _ Hrun) as [Hext' Hagain']. split.
    + by eapply extends_trans.
    + intros s'' Hs''.
      rewrite (Hagain s'') by (by eapply extends_trans).
      by apply Hagain'.
  - injection Hrun as <- <-. split; [done|].
    intros s'' Hs''. by rewrite (Hagain s'').
  - injection Hrun as <- <-. split; [done|].
    intros s'' Hs''. by rewrite (Hagain s'').
Qed.

Lemma replays_vocab_get t : replays (vocab_get t).
Proof.
  intros s o s'. unfold vocab_get.
  destruct (vocab s !! t) eqn:Hv; intros [= <- <-];
    (split; [apply extends_refl|]); intros s'' [Hvoc _];
    by rewrite Hvoc, Hv.
Qed.

Lemma set_cache_enter_loop_neq self text v :
  set_cache text v (enter_loop self) <> self.
Proof.
  intros E. apply (f_equal merge_loops) in E. simpl in E. lia.
Qed.

Section Memoization.
Context `{PySet}.

Lemma replays_bpe text : replays (bpe text).
Proof.
  intros s o s' Hrun.
  destruct (_cache s !! text) as [cached|] eqn:Hc.
  - (* served from the cache *)
    rewrite (bpe_hit _ _ _ Hc) in Hrun. injection Hrun as <- <-.
    split; [apply extends_refl|]. intros s'' [_ Hc''].
    apply bpe_hit. destruct (Hc'' text) as [E|[E _]]; congruence.
  - destruct (bpe_miss s text Hc)
      as [[-> Hb] | [(u & Hu & Hbi & Hlen & Hb)
                    | (u & final & Hu & Hbi & Hlen & _ & Hb)]];
      rewrite Hb in Hrun; injection Hrun as <- <-.
    + (* the empty text *)
      split; [apply extends_refl|]. intros s'' [_ Hc''].
      assert (Hnone : _cache s'' !! "" = None).
      { destruct (Hc'' "") as [E|[_ Hl]]; [congruence|simpl in Hl; lia]. }
      destruct (bpe_miss s'' "" Hnone)
        as [[_ Hb''] | [(u & Hu & _) | (u & final & Hu & _)]];
        [done|discriminate Hu|discriminate Hu].
    + (* one character: recomputed, never stored *)
      split; [apply extends_refl|]. intros s'' [_ Hc''].
      assert (Hnone : _cache s'' !! text = None).
      { destruct (Hc'' text) as [E|[_ Hl]]; [congruence|lia]. }
      destruct (bpe_miss s'' text Hnone)
        as [[-> _] | [(u' & Hu' & _ & _ & Hb'')
                     | (u' & final & _ & _ & Hl & _)]];
        [discriminate Hu| |lia].
      rewrite Hb''. congruence.
    + (* merged and stored *)
      split.
      * split; [reflexivity|]. intros k. simpl.
        destruct (decide (text = k)) as [<-|Hne].
        -- right. by split.
        -- left. by rewrite lookup_insert_ne.
      * intros s'' [_ Hc'']. apply bpe_hit.
        destruct (Hc'' text) as [E|[E _]]; simpl in E;
          rewrite lookup_insert_eq in E; [done|discriminate].
Qed.

Lemma replays_bpe_tokens tokens : replays (bpe_tokens tokens).
Proof.
  induction tokens as [|t tokens IH]; simpl; [apply replays_ret|].
  apply replays_bind; [apply replays_bpe|]. intros pieces.
  apply replays_bind; [exact IH|]. intros more. apply replays_ret.
Qed.

Lemma replays_vocab_ids sub_tokens : replays (vocab_ids sub_tokens).
Proof.
  induction sub_tokens as [|t sub_tokens IH]; simpl; [apply replays_ret|].
  apply replays_bind; [apply replays_vocab_get|]. intros i.
  apply replays_bind; [exact IH|]. intros more. apply replays_ret.
Qed.

Context `{UnicodeTables}.

Lemma replays_tokenize text prepend_bos append_eos :
  replays (tokenize text prepend_bos append_eos).
Proof.
  unfold tokenize.
  apply replays_bind; [apply replays_bpe_tokens|]. intros sub_tokens.
  apply replays_bind; [apply replays_vocab_ids|]. intros ids.
  apply replays_bind.
  { destruct prepend_bos; [|apply replays_ret].
    apply replays_bind; [apply replays_vocab_get|].
    intros b. apply replays_ret. }
  intros ids'. apply replays_bind; [|intros; apply replays_ret].
  destruct append_eos; [|apply replays_ret].
  apply replays_bind; [apply replays_vocab_get|].
  intros e. apply replays_ret.
Qed.
End Memoization.

(** ** The tokenizer claims *)

(** C1, evaluated on the code.  The input ["<|startoftext|>"] is split into
    the single coarse token ["<|startoftext|>"], and [bpe] finds it in the
    pre-seeded cache; but the cached value is the Python string itself, so
    the comprehension of [tokenize] iterates over its fifteen characters.
    With a vocabulary that knows those characters the marker contributes
    fifteen ids, none of them its own id 6; with the vocabulary of the
    specification's concrete case the call raises [KeyError] on ["<"]. *)
Theorem special_marker_split_into_chars :
  coarse_tokens bos = [bos] /\
  (forall ranks vocabulary,
      bpe bos (init ranks vocabulary)
      = (Ok (PyStr bos), init ranks vocabulary)) /\
  fst (bpe_tokens (coarse_tokens bos) (init example_ranks marker_vocab))
  = Ok ["<"; "|"; "s"; "t"; "a"; "r"; "t"; "o"; "f"; "t"; "e"; "x"; "t";
        "|"; ">"] /\
  fst (tokenize bos false false (init example_ranks marker_vocab))
  = Ok [10; 11; 12; 13; 14; 15; 13; 16; 17; 13; 18; 19; 13; 11; 20]%Z /\
  fst (tokenize bos false false (init example_ranks example_vocab))
  = Raise (KeyError "<").
Proof.
  split; [reflexivity|]. split.
  - intros ranks vocabulary. apply bpe_hit. simpl.
    apply lookup_insert_eq.
  - repeat split; vm_compute; reflexivity.
Qed.

(** C2.  For every coarse token of at least one character that [bpe] has to
    compute, and every merge table, [bpe] returns the sequence the
    specification describes: starting from the token's unigrams, it
    repeatedly takes, among the pairs of neighbours of the sequence, one
    of lowest rank, stops when that pair has no rank (or the sequence has
    no pair), and otherwise merges its non-overlapping occurrences left
    to right in one pass and repeats.  The description is [merges_to],
    which is written from the specification's words: it names neither the
    pairs the source zips nor the comparison the source's [min] makes. *)
Theorem bpe_refines_spec `{PySet} (self : CLIPTokenizer) (text : string) :
  (1 <= String.length text)%nat ->
  _cache self !! text = None ->
  exists unigrams final,
    unigrams_of text = Ok unigrams /\
    fst (bpe text self) = Ok (PyList final) /\
    merges_to (bpe_ranks self) unigrams final.
Proof.
  intros Hlen Hc.
  destruct (bpe_miss self text Hc)
    as [[-> _] | [(u & Hu & Hbi & _ & Hb)
                 | (u & final & Hu & _ & _ & Hspec & Hb)]].
  - simpl in Hlen. lia.
  - exists u, u. rewrite Hb. repeat split; try done.
    by apply merges_none, no_adjacent.
  - exists u, final. rewrite Hb. by repeat split.
Qed.

Lemma bpe_refines_spec_witness :
  exists unigrams final,
    unigrams_of "abab" = Ok unigrams /\
    fst (bpe "abab" (init example_ranks example_vocab)) = Ok (PyList final) /\
    merges_to example_ranks unigrams final.
Proof.
  apply (bpe_refines_spec (init example_ranks example_vocab) "abab").
  - simpl. lia.
  - reflexivity.
Defined.

(** C3.  With the vocabulary and merge table of the concrete case, the
    unigrams of ["ab"] are ["a"; "b</w>"], [bpe] merges them into
    ["ab</w>"], and [tokenize "ab"] with both markers returns [6; 5; 7]. *)
Theorem tokenize_ab :
  unigrams_of "ab" = Ok ["a"; "b</w>"] /\
  fst (bpe "ab" (init example_ranks example_vocab)) = Ok (PyList ["ab</w>"]) /\
  fst (tokenize "ab" true true (init example_ranks example_vocab))
  = Ok [6; 5; 7]%Z.
Proof. repeat split; vm_compute; reflexivity. Qed.

(** C4 as stated fails: [bpe] called on a one-character token returns its
    single unigram through the early return of line 49 and stores nothing
    in the cache. *)
Lemma bpe_single_char_not_cached :
  ~ (forall (self : CLIPTokenizer) (text : string) (final : pyval),
        fst (bpe text self) = Ok final ->
        _cache (snd (bpe text self)) !! text = Some final).
Proof.
  intros Hclaim.
  specialize (Hclaim (init example_ranks example_vocab) "a"
                     (PyList ["a</w>"]) eq_refl).
  vm_compute in Hclaim. discriminate Hclaim.
Qed.

(** C4, amended.  A token of two or more characters that is not yet cached
    is stored, mapped to the sequence [bpe] returns; a cached token is
    returned as stored and the object is left as it was; a one-character
    token is returned without being stored and without reaching the merge
    loop.  A second call of [tokenize] on the same input returns the same
    outcome as the first and leaves the object unchanged: nothing is added
    to the cache and the merge loop is not reached again. *)
Theorem bpe_memoizes `{PySet} `{UnicodeTables} (self : CLIPTokenizer) :
  (forall text,
      (2 <= String.length text)%nat -> _cache self !! text = None ->
      exists final,
        fst (bpe text self) = Ok (PyList final) /\
        _cache (snd (bpe text self)) !! text = Some (PyList final)) /\
  (forall text cached,
      _cache self !! text = Some cached ->
      bpe text self = (Ok cached, self)) /\
  (forall text,
      String.length text = 1%nat -> _cache self !! text = None ->
      exists unigrams, bpe text self = (Ok (PyList unigrams), self)) /\
  (forall text prepend_bos append_eos,
      let first := tokenize text prepend_bos append_eos self in
      tokenize text prepend_bos append_eos (snd first) = first /\
      merge_loops (snd (tokenize text prepend_bos append_eos (snd first)))
      = merge_loops (snd first)).
Proof.
  split; [|split; [|split]].
  - intros text Hlen Hc.
    destruct (bpe_miss self text Hc)
      as [[-> _] | [(u & _ & _ & Hl & _)
                   | (u & final & _ & _ & _ & _ & Hb)]].
    + simpl in Hlen. lia.
    + lia.
    + exists final. rewrite Hb. simpl. split; [done|].
      apply lookup_insert_eq.
  - intros text cached. apply bpe_hit.
  - intros text Hlen Hc.
    destruct (bpe_miss self text Hc)
      as [[-> _] | [(u & _ & _ & _ & Hb)
                   | (u & final & _ & _ & Hl & _)]].
    + simpl in Hlen. lia.
    + by exists u.
    + lia.
  - intros text prepend_bos append_eos first.
    destruct first as [o s'] eqn:Hrun. subst first.
    destruct (replays_tokenize text prepend_bos append_eos _ _ _ Hrun)
      as [_ Hagain].
    simpl. rewrite (Hagain s' (extends_refl s')). by split.
Qed.

Lemma bpe_memoizes_witness :
  (exists final,
      fst (bpe "abab" (init example_ranks example_vocab)) = Ok (PyList final) /\
      _cache (snd (bpe "abab" (init example_ranks example_vocab))) !! "abab"
      = Some (PyList final)) /\
  bpe bos (init example_ranks example_vocab)
  = (Ok (PyStr bos), init example_ranks example_vocab) /\
  (exists unigrams,
      bpe "a" (init example_ranks example_vocab)
      = (Ok (PyList unigrams), init example_ranks example_vocab)).
Proof.
  pose proof (bpe_memoizes (init example_ranks example_vocab))
    as (Hlong & Hhit & Hone & _).
  split; [|split].
  - apply (Hlong "abab"); [simpl; lia|reflexivity].
  - apply (Hhit bos). reflexivity.
  - apply (Hone "a"); reflexivity.
Defined.

(** C10.  Where the vocabulary holds the two markers: a text of white
    space only (the empty text included) has no coarse token; on a text
    without coarse token, [tokenize] with both markers returns exactly
    [[bos_token; eos_token]] and leaves the object untouched; and no
    coarse token of any text is empty, so [bpe] is never called on the
    empty string. *)
Theorem tokenize_without_tokens `{PySet} `{UnicodeTables}
    (self : CLIPTokenizer) (text : string) (b e : Z) :
  vocab self !! bos = Some b ->
  vocab self !! eos = Some e ->
  (str_forallb is_space text = true -> coarse_tokens text = []) /\
  (coarse_tokens text = [] ->
   tokenize text true true self = (Ok [b; e], self)) /\
  (forall t, t ∈ coarse_tokens text -> t <> EmptyString).
Proof.
  intros Hb He. split; [apply coarse_tokens_spaces|]. split.
  - intros Hnone. unfold tokenize. rewrite Hnone.
    unfold bind, bos_token, eos_token, vocab_get, ret. simpl.
    by rewrite Hb, He.
  - intros t. apply coarse_tokens_nonempty.
Qed.

Lemma tokenize_without_tokens_witness :
  coarse_tokens "  " = [] /\
  tokenize "  " true true (init example_ranks example_vocab)
  = (Ok [6; 7]%Z, init example_ranks example_vocab).
Proof.
  destruct (tokenize_without_tokens (init example_ranks example_vocab)
              "  " 6 7 eq_refl eq_refl) as (Hsp & Hrun & _).
  split; [apply Hsp; reflexivity|].
  apply Hrun, Hsp. reflexivity.
Defined.

(** ** The text encoder *)

Lemma argmax_from_spec row : forall pre best_at best,
  pre !! best_at = Some best ->
  (forall j v, pre !! j = Some v -> (v <= best)%Z) ->
  (forall j v, (j < best_at)%nat -> pre !! j = Some v -> (v < best)%Z) ->
  first_max_at (pre ++ row) (argmax_from best_at best (length pre) row).
Proof.
  induction row as [|v row IH]; intros pre best_at best Hat Hmax Hfirst.
  - simpl. rewrite app_nil_r. by exists best.
  - simpl. replace (pre ++ v :: row) with ((pre ++ [v]) ++ row)
      by (by rewrite <- app_assoc).
    replace (S (length pre)) with (length (pre ++ [v]))
      by (rewrite length_app; simpl; lia).
    destruct (Z.ltb_spec best v) as [Hlt|Hge].
    + apply IH.
      * by rewrite lookup_app_r, Nat.sub_diag.
      * intros j w Hj. apply lookup_app_Some in Hj as [Hj|[_ Hj]].
        -- specialize (Hmax _ _ Hj). lia.
        -- apply list_lookup_singleton_Some in Hj as [_ <-]. lia.
      * intros j w Hlt' Hj. rewrite lookup_app_l in Hj by done.
        specialize (Hmax _ _ Hj). lia.
    + apply IH.
      * apply lookup_app_l_Some. exact Hat.
      * intros j w Hj. apply lookup_app_Some in Hj as [Hj|[_ Hj]].
        -- by apply (Hmax j).
        -- apply list_lookup_singleton_Some in Hj as [_ <-]. lia.
      * intros j w Hlt' Hj.
        assert (j < length pre)%nat.
        { apply lookup_lt_Some in Hat. lia. }
        rewrite lookup_app_l in Hj by done. by apply (Hfirst j).
Qed.

(** [mx.argmax] on a non-empty row returns the first position of its
    largest entry. *)
Lemma argmax_row_spec row : row <> [] -> first_max_at row (argmax_row row).
Proof.
  destruct row as [|v row]; [done|]. intros _.
  apply (argmax_from_spec row [v] 0 v).
  - reflexivity.
  - intros [|j] w; simpl; [intros [= <-]; lia|done].
  - intros j w Hj. lia.
Qed.

Lemma first_max_at_lt row p : first_max_at row p -> (p < length row)%nat.
Proof. intros (m & Hp & _). by apply lookup_lt_Some in Hp. Qed.

Lemma gather_rows_spec {A} (at_ : list nat) : forall (rows : list (list A)),
  (forall b i, at_ !! b = Some i ->
               exists row, rows !! b = Some row /\ (i < length row)%nat) ->
  exists vs,
    gather_rows rows at_ = Ok vs /\
    length vs = length at_ /\
    forall b i row, at_ !! b = Some i -> rows !! b = Some row ->
                    vs !! b = row !! i /\ is_Some (vs !! b).
Proof.
  induction at_ as [|i at_ IH]; intros rows Hin.
  - exists []. repeat split; try done.
  - destruct (Hin 0%nat i eq_refl) as (row & Hrow & Hlt).
    destruct rows as [|row' rows]; [done|]. injection Hrow as ->.
    destruct (lookup_lt_is_Some_2 row i Hlt) as [v Hv].
    destruct (IH rows) as (vs & Hvs & Hlen & Hall).
    { intros b j Hb. exact (Hin (S b) j Hb). }
    exists (v :: vs). simpl. rewrite Hv, Hvs. simpl.
    split; [done|]. split; [by rewrite Hlen|].
    intros [|b] j r; simpl.
    + intros [= <-] [= <-]. rewrite Hv. eauto.
    + apply Hall.
Qed.

Lemma gather_rows_inv {A} (at_ : list nat) :
  forall (rows : list (list A)) vs,
  gather_rows rows at_ = Ok vs ->
  forall b i, at_ !! b = Some i ->
    exists row v, rows !! b = Some row /\ row !! i = Some v /\
                  vs !! b = Some v.
Proof.
  induction at_ as [|i at_ IH]; intros rows vs Hrun b j Hb; [done|].
  cbn [gather_rows] in Hrun.
  destruct rows as [|row rows]; [discriminate|].
  destruct (row !! i) as [v|] eqn:Hv; [|by destruct row].
  destruct (gather_rows rows at_) as [vs'| |] eqn:Hrest; try discriminate.
  injection Hrun as <-. destruct b as [|b].
  - injection Hb as <-. by exists row, v.
  - exact (IH rows vs' Hrest b j Hb).
Qed.

Lemma gather_rows_length {A} (at_ : list nat) :
  forall (rows : list (list A)) vs,
  gather_rows rows at_ = Ok vs -> length vs = length at_.
Proof.
  induction at_ as [|i at_ IH]; intros rows vs; cbn [gather_rows].
  - by intros [= <-].
  - destruct rows as [|row rows]; [discriminate|].
    destruct (row !! i); [|by destruct row].
    destruct (gather_rows rows at_) as [vs'| |] eqn:Hrest; try discriminate.
    intros [= <-]. simpl. f_equal. by eapply IH.
Qed.

Section TextModelFacts.
Context `{Scalar}.

(** The text encoder pools one vector for every sequence of the batch. *)
Lemma text_output_rows self x out :
  CLIPTextModel_call self x = Ok out ->
  length (pooler_output out) = length (id_rows x).
Proof.
  unfold CLIPTextModel_call, argmax.
  destruct (_ || _)%bool; [discriminate|]. cbn [obind].
  destruct (_embed self x); try discriminate. cbn [obind].
  destruct (gather_rows _ _) as [pooled| |] eqn:Hg; try discriminate.
  intros [= <-]. cbn [pooler_output].
  rewrite (gather_rows_length _ _ _ Hg). apply length_map.
Qed.

Lemma text_output_nonempty self x out :
  CLIPTextModel_call self x = Ok out -> pooler_output out <> [].
Proof.
  intros Hcall. pose proof (text_output_rows self x out Hcall) as Hlen.
  unfold CLIPTextModel_call, argmax in Hcall.
  destruct (Nat.eqb_spec (length (id_rows x)) 0) as [|Hrows];
    [discriminate|].
  intros Hnil. rewrite Hnil in Hlen. simpl in Hlen. lia.
Qed.


Lemma run_layers_shape ls mask : forall x,
  Forall keeps_shape ls ->
  map length (run_layers ls mask x) = map length x.
Proof.
  induction ls as [|l ls IH]; intros x Hls; [reflexivity|].
  inversion Hls as [|? ? Hl Hls']; subst.
  change (run_layers (l :: ls) mask x) with (run_layers ls mask (l x mask)).
  rewrite IH by done. apply Hl.
Qed.

(** When the sequences fit the position table, or the table has a single
    row (which broadcasting repeats), [_embed] returns one sequence of
    [seq_len x] vectors for every row of ids. *)
Lemma _embed_fits self x :
  rectangular x ->
  (seq_len x <= max_position_embeddings self)%nat \/
  max_position_embeddings self = 1%nat ->
  exists h,
    _embed self x = Ok h /\
    map length h = map (fun _ => seq_len x) (id_rows x).
Proof.
  intros Hrect Hfit. unfold _embed, max_position_embeddings in *.
  set (positions := firstn (seq_len x) (position_embedding self)).
  assert (Hpos : length positions = seq_len x \/
                 (seq_len x <> 1%nat /\ exists p, positions = [p])).
  { destruct (decide (seq_len x <= length (position_embedding self))%nat)
      as [Hle|Hgt].
    - left. unfold positions. rewrite length_firstn. lia.
    - right. destruct Hfit as [?|Hone]; [lia|]. split; [lia|].
      unfold positions.
      destruct (position_embedding self) as [|p [|q tbl]]; try done.
      exists p. destruct (seq_len x); [simpl in *; lia|].
      simpl. by rewrite firstn_nil. }
  assert (Hlen : broadcast_len (seq_len x) (length positions)
                 = Ok (seq_len x)).
  { unfold broadcast_len. destruct Hpos as [->|[Hne [p ->]]].
    - by rewrite Nat.eqb_refl.
    - simpl. by rewrite (proj2 (Nat.eqb_neq _ _) Hne). }
  rewrite Hlen. cbn [obind]. eexists; split; [reflexivity|].
  rewrite !map_map. apply map_ext_Forall.
  eapply Forall_impl; [exact Hrect|]. intros row Hrow. simpl in Hrow |- *.
  unfold broadcast_add. rewrite length_map, Hrow.
  destruct Hpos as [Hpos|[Hne [p ->]]].
  - rewrite Hpos, Nat.eqb_refl.
    rewrite length_zip_with, length_map. lia.
  - simpl. rewrite (proj2 (Nat.eqb_neq _ _) Hne).
    by rewrite !length_map.
Qed.
End TextModelFacts.

(** C5.  For every batch of token-id sequences on which the text encoder
    returns, its [last_hidden_state] is the final layer norm of the layer
    stack's output, and for each row the pooled output is the entry of
    [last_hidden_state] at the first position of that row's largest token
    id: a read at an index, no mean or maximum over values.  That position
    holds the end-of-text id whenever the row contains it and no id of the
    row is larger.  And the encoder does return on every batch of at least
    one row of at least one token that fits the position table (or meets a
    table of a single row), when its layers keep the shape of their
    input. *)
Theorem pooled_at_argmax `{Scalar} (self : CLIPTextModel) (x : id_batch) :
  rectangular x ->
  (forall out,
      CLIPTextModel_call self x = Ok out ->
      exists h,
        _embed self x = Ok h /\
        last_hidden_state out
        = map (map (final_layer_norm self))
              (run_layers (layers self)
                          (create_additive_causal_mask (seq_len x)) h) /\
        forall b row, id_rows x !! b = Some row ->
          exists p states state,
            first_max_at row p /\
            (forall eot, eot ∈ row -> (forall v, v ∈ row -> (v <= eot)%Z) ->
                         row !! p = Some eot) /\
            last_hidden_state out !! b = Some states /\
            states !! p = Some state /\
            pooler_output out !! b = Some state) /\
  (id_rows x <> [] ->
   (1 <= seq_len x)%nat ->
   (seq_len x <= max_position_embeddings self)%nat \/
   max_position_embeddings self = 1%nat ->
   Forall keeps_shape (layers self) ->
   exists out, CLIPTextModel_call self x = Ok out).
Proof.
  intros Hrect.
  assert (Hrow_len : forall b row, id_rows x !! b = Some row ->
                                   length row = seq_len x).
  { intros b row Hb. exact (Forall_lookup_1 _ _ _ _ Hrect Hb). }
  split.
  - (* what a returned output holds *)
    intros out. unfold CLIPTextModel_call.
    destruct (argmax x) as [eot_tokens| |] eqn:Harg; try discriminate.
    cbn [obind].
    destruct (_embed self x) as [h| |] eqn:Hembed; try discriminate.
    cbn [obind].
    set (hidden_out := map (map (final_layer_norm self)) _).
    destruct (gather_rows hidden_out eot_tokens) as [pooled| |] eqn:Hgather;
      try discriminate.
    cbn [obind]. intros [= <-]. exists h. split; [done|]. split; [done|].
    intros b row Hb. cbn [last_hidden_state pooler_output].
    unfold argmax in Harg.
    destruct (Nat.eqb (length (id_rows x)) 0 || Nat.eqb (seq_len x) 0)%bool
      eqn:Hempty; [discriminate|].
    injection Harg as <-.
    apply orb_false_iff in Hempty as [_ Hn%Nat.eqb_neq].
    destruct (gather_rows_inv _ _ _ Hgather b (argmax_row row))
      as (states & state & Hstates & Hstate & Hpooled).
    { by rewrite list_lookup_fmap, Hb. }
    assert (Hfm : first_max_at row (argmax_row row)).
    { apply argmax_row_spec. intros ->.
      specialize (Hrow_len _ _ Hb). simpl in Hrow_len. lia. }
    exists (argmax_row row), states, state.
    split; [done|]. split; [|done].
    intros eot Heot Hlargest. destruct Hfm as (m & Hm & Hall & _).
    apply list_elem_of_lookup in Heot as [j Hj].
    specialize (Hall _ _ Hj).
    specialize (Hlargest m (list_elem_of_lookup_2 _ _ _ Hm)).
    rewrite Hm. f_equal. lia.
  - (* the encoder returns *)
    intros Hrows Hpos Hfit Hlayers.
    destruct (_embed_fits self x Hrect Hfit) as (h & Hembed & Hshape).
    set (mask := create_additive_causal_mask (seq_len x)).
    set (hidden_out := map (map (final_layer_norm self))
                           (run_layers (layers self) mask h)).
    assert (Hshape' : map length hidden_out
                      = map (fun _ => seq_len x) (id_rows x)).
    { unfold hidden_out. rewrite map_map.
      rewrite <- Hshape, <- (run_layers_shape (layers self) mask h Hlayers).
      apply map_ext. intros states. apply length_map. }
    destruct (gather_rows_spec (map argmax_row (id_rows x)) hidden_out)
      as (pooled & Hgather & _).
    { intros b i Hb. rewrite list_lookup_fmap in Hb.
      destruct (id_rows x !! b) as [row|] eqn:Hrow; [|done].
      injection Hb as <-.
      assert (Hl : map length hidden_out !! b = Some (seq_len x)).
      { rewrite Hshape'. by rewrite list_lookup_fmap, Hrow. }
      rewrite list_lookup_fmap in Hl.
      destruct (hidden_out !! b) as [states|]; [|done].
      exists states. split; [done|]. injection Hl as ->.
      rewrite <- (Hrow_len _ _ Hrow).
      apply first_max_at_lt, argmax_row_spec. intros ->.
      specialize (Hrow_len _ _ Hrow). simpl in Hrow_len. lia. }
    exists {| pooler_output := pooled; last_hidden_state := hidden_out |}.
    unfold CLIPTextModel_call, argmax.
    replace (Nat.eqb (length (id_rows x)) 0) with false
      by (destruct (id_rows x); done).
    replace (Nat.eqb (seq_len x) 0) with false
      by (symmetry; apply Nat.eqb_neq; lia).
    cbn [orb obind]. rewrite Hembed. cbn [obind].
    fold mask. fold hidden_out. rewrite Hgather. reflexivity.
Qed.

Lemma pooled_at_argmax_witness :
  exists out,
    CLIPTextModel_call (example_text_model 4) example_ids = Ok out /\
    forall b row, id_rows example_ids !! b = Some row ->
      exists p states state,
        first_max_at row p /\
        last_hidden_state out !! b = Some states /\
        states !! p = Some state /\
        pooler_output out !! b = Some state.
Proof.
  destruct (pooled_at_argmax (example_text_model 4) example_ids)
    as [Hpool Hreturns].
  { repeat constructor. }
  destruct Hreturns as [out Hout].
  { discriminate. }
  { vm_compute. lia. }
  { left. vm_compute. lia. }
  { repeat constructor. }
  exists out. split; [exact Hout|].
  destruct (Hpool out Hout) as (h & _ & _ & Hrows).
  intros b row Hb.
  destruct (Hrows b row Hb)
    as (p & states & state & Hmax & _ & Hstates & Hstate & Hpooled).
  by exists p, states, state.
Defined.

(** C9 as stated fails: with a position table of a single row, a batch of
    sequences of three tokens is encoded without any error; the one
    position row is broadcast to all three positions. *)
Lemma single_position_row_is_broadcast :
  ~ (forall (self : CLIPTextModel) (x : id_batch),
        (max_position_embeddings self < seq_len x)%nat ->
        exists e, CLIPTextModel_call self x = Raise e).
Proof.
  intros Hclaim.
  destruct (Hclaim (example_text_model 1) example_ids) as [e He].
  - vm_compute. lia.
  - vm_compute in He. discriminate He.
Qed.

(** C9, amended.  For every batch whose sequence length exceeds
    [max_position_embeddings], unless the position table has exactly one
    row, the encoder raises a [ValueError]: the shape error of the
    broadcast in [_embed] for sequences of two or more tokens; and for
    sequences of one token (the table is then empty), on a rectangular
    batch and with layers that keep shapes, the error of the pooled read
    from hidden states without positions.  And the slice
    [position_embedding[:N]] never reaches beyond the table: it has at
    most as many rows as the table, each of them the table's row at the
    same position. *)
Theorem position_table_bound `{Scalar} (self : CLIPTextModel) (x : id_batch) :
  (max_position_embeddings self < seq_len x)%nat ->
  max_position_embeddings self <> 1%nat ->
  (seq_len x = 1%nat ->
   rectangular x /\ Forall keeps_shape (layers self)) ->
  CLIPTextModel_call self x = Raise ValueError /\
  (length (firstn (seq_len x) (position_embedding self))
   <= max_position_embeddings self)%nat /\
  (forall i v, firstn (seq_len x) (position_embedding self) !! i = Some v ->
               position_embedding self !! i = Some v).
Proof.
  unfold max_position_embeddings. intros Hlong Hone Hsingle.
  split; [|split].
  - unfold CLIPTextModel_call. destruct (argmax x) as [eot|e|] eqn:Harg.
    + simpl obind at 1.
      destruct (decide (seq_len x = 1%nat)) as [Hn|Hn].
      * (* one token, an empty table *)
        destruct (Hsingle Hn) as [Hrect Hlayers].
        assert (Htable : position_embedding self = []).
        { destruct (position_embedding self); [done|simpl in *; lia]. }
        unfold argmax in Harg. rewrite Hn in Harg.
        destruct (id_rows x) as [|row rows] eqn:Hrows; [discriminate|].
        injection Harg as <-.
        unfold _embed. rewrite Hn, Htable, Hrows. cbn [obind firstn length
          broadcast_len Nat.eqb].
        set (h := map (fun e => broadcast_add e []) _).
        assert (Hh : map length h = map (fun _ => 0%nat) (row :: rows)).
        { unfold h. rewrite !map_map. apply map_ext_Forall.
          unfold rectangular in Hrect. rewrite Hrows, Hn in Hrect.
          eapply Forall_impl; [exact Hrect|]. intros r Hr. simpl in Hr.
          destruct r as [|a [|b r]]; simpl in Hr; try lia. reflexivity. }
        set (mask := create_additive_causal_mask 1).
        set (final := map (map (final_layer_norm self))
                          (run_layers (layers self) mask h)).
        assert (Hfinal : map length final
                         = map (fun _ => 0%nat) (row :: rows)).
        { unfold final. rewrite map_map. rewrite <- Hh.
          rewrite <- (run_layers_shape (layers self) mask h Hlayers).
          apply map_ext. intros states. apply length_map. }
        destruct final as [|[|state states] final]; try discriminate.
        reflexivity.
      * unfold _embed.
        rewrite length_firstn, Nat.min_r by lia.
        unfold broadcast_len.
        rewrite (proj2 (Nat.eqb_neq _ _)) by lia.
        rewrite (proj2 (Nat.eqb_neq _ _)) by lia.
        rewrite (proj2 (Nat.eqb_neq _ _)) by lia.
        reflexivity.
    + unfold argmax in Harg.
      destruct (_ || _)%bool; [|discriminate]. by injection Harg as <-.
    + unfold argmax in Harg. destruct (_ || _)%bool; discriminate.
  - rewrite length_firstn. lia.
  - intros i v Hi. by apply lookup_take_Some in Hi as [Hi _].
Qed.

Lemma position_table_bound_witness :
  CLIPTextModel_call (example_text_model 2) example_ids = Raise ValueError /\
  CLIPTextModel_call (example_text_model 0) example_ids_single
  = Raise ValueError.
Proof.
  split.
  - apply (position_table_bound (example_text_model 2) example_ids);
      [vm_compute; lia|vm_compute; lia|].
    intros Hn. vm_compute in Hn. discriminate Hn.
  - apply (position_table_bound (example_text_model 0) example_ids_single);
      [vm_compute; lia|vm_compute; lia|].
    intros _. split; repeat constructor.
Defined.

(** ** Causality of the text encoder *)

Section Causality.
Context `{Scalar}.











End Causality.








(** ** The joint model *)

Lemma map_nth_seq {A} (d : A) (l : list A) :
  map (fun k => nth k l d) (seq 0 (length l)) = l.
Proof.
  apply list_eq. intros i. rewrite list_lookup_fmap.
  destruct (decide (i < length l)%nat) as [Hlt|Hge].
  - rewrite lookup_seq_lt by done. simpl.
    destruct (lookup_lt_is_Some_2 l i Hlt) as [v Hv].
    rewrite Hv. f_equal. by apply nth_lookup_Some.
  - rewrite lookup_seq_ge by lia. simpl. symmetry.
    apply lookup_ge_None. lia.
Qed.

(** What [row_losses] holds for every row: [logsumexp] of the row minus
    the score read at the target, which is the row's entry there whenever
    the row has one. *)
Lemma row_losses_spec `{Memory} (rows : list vector) : forall first,
  length (row_losses first rows) = length rows /\
  forall k row, rows !! k = Some row ->
    exists score,
      row_losses first rows !! k = Some (sub (logsumexp row) score) /\
      forall s, row !! (first + k)%nat = Some s -> score = s.
Proof.
  induction rows as [|row rows IH]; intros first; [done|].
  destruct (IH (S first)) as [Hlen Hall]. split; [simpl; by rewrite Hlen|].
  intros [|k] r; simpl.
  - intros [= <-]. exists (read_unchecked row first). split; [done|].
    rewrite Nat.add_0_r. unfold read_unchecked. by intros s ->.
  - intros Hk. destruct (Hall k r Hk) as (score & Hs & Hscore).
    exists score. split; [done|]. by rewrite <- Nat.add_succ_comm.
Qed.

Section SpecBridge.
Context `{Scalar}.

(** The dot product of the source is the sum of products of the
    specification. *)
Lemma dot_inner_product u v : dot u v = inner_product u v.
Proof.
  unfold dot, inner_product. f_equal. apply list_eq. intros i.
  rewrite lookup_zip_with, list_lookup_fmap.
  destruct (decide (i < min (length u) (length v))%nat) as [Hlt|Hge].
  - rewrite lookup_seq_lt by done.
    destruct (lookup_lt_is_Some_2 u i ltac:(lia)) as [a Ha].
    destruct (lookup_lt_is_Some_2 v i ltac:(lia)) as [b Hb].
    rewrite Ha, Hb. simpl.
    by rewrite (nth_lookup_Some _ _ zero _ Ha),
               (nth_lookup_Some _ _ zero _ Hb).
  - rewrite lookup_seq_ge by lia. simpl.
    destruct (u !! i) as [a|] eqn:Ha; [|done]. simpl.
    destruct (v !! i) as [b|] eqn:Hb; [|done].
    apply lookup_lt_Some in Ha, Hb. lia.
Qed.

Lemma norm_inner_product v : norm v = sqrt (inner_product v v).
Proof.
  unfold norm. by rewrite <- dot_inner_product, <- zip_with_diag.
Qed.

(** The embeddings the forward pass computes are the normalized
    projections of the specification. *)
Lemma embeddings_model w pooled :
  normalize (linear w pooled) = embeddings w pooled.
Proof.
  unfold normalize, linear, embeddings. cbn [n_rows n_cols entries].
  f_equal. rewrite map_map. apply map_ext. intros x.
  unfold l2_normalized, projected.
  rewrite norm_inner_product.
  by rewrite (map_ext (dot x) (fun row => inner_product x row))
    by (intros; apply dot_inner_product).
Qed.
End SpecBridge.

Section JointFacts.
Context `{Scalar}.

Lemma well_shaped_linear w x : well_shaped (linear w x).
Proof.
  split; simpl; [apply length_map|].
  apply Forall_forall. intros row [v [-> _]]%list_elem_of_fmap.
  apply length_map.
Qed.

Lemma well_shaped_normalize m : well_shaped m -> well_shaped (normalize m).
Proof.
  intros [Hrows Hcols]. split; simpl; [by rewrite length_map|].
  apply Forall_forall. intros row [v [-> Hv]]%list_elem_of_fmap.
  rewrite length_map. rewrite Forall_forall in Hcols. by apply Hcols.
Qed.

Lemma column_lookup j m i row :
  entries m !! i = Some row -> column j m !! i = Some (nth j row zero).
Proof. intros Hi. unfold column. by rewrite list_lookup_fmap, Hi. Qed.

Lemma column_length j m : length (column j m) = length (entries m).
Proof. apply length_map. Qed.

(** A column of [m.T] is the row of [m] of the same index. *)
Lemma column_transpose m j row :
  well_shaped m -> entries m !! j = Some row ->
  column j (transpose m) = row.
Proof.
  intros [_ Hcols] Hj. unfold column at 1. simpl. rewrite map_map.
  transitivity (map (fun k => nth k row zero) (seq 0 (length row)));
    [|apply map_nth_seq].
  rewrite (Forall_lookup_1 _ _ _ _ Hcols Hj).
  apply map_ext. intros k.
  apply nth_lookup_Some with (d := zero).
  by rewrite (column_lookup k m j row Hj).
Qed.

(** An entry of [m.T] is the mirrored entry of [m]. *)
Lemma transpose_lookup m i j row v :
  well_shaped m ->
  entries m !! i = Some row -> row !! j = Some v ->
  exists col, entries (transpose m) !! j = Some col /\ col !! i = Some v.
Proof.
  intros [_ Hcols] Hi Hj. exists (column j m). split.
  - simpl. rewrite list_lookup_fmap, lookup_seq_lt; [done|].
    rewrite <- (Forall_lookup_1 _ _ _ _ Hcols Hi).
    by apply lookup_lt_Some in Hj.
  - rewrite (column_lookup j m i row Hi). f_equal.
    by apply nth_lookup_Some.
Qed.
End JointFacts.

Section LogitsFacts.
Context `{Scalar}.

(** The text-to-image logits of two well-shaped embedding matrices of a
    common width. *)
Lemma logits_per_text_spec self text image :
  well_shaped text -> well_shaped image -> n_cols text = n_cols image ->
  exists per_text,
    logits_per_text self text image = Ok per_text /\
    well_shaped per_text /\
    n_rows per_text = n_rows text /\
    n_cols per_text = n_rows image /\
    forall i j t e,
      entries text !! i = Some t -> entries image !! j = Some e ->
      exists row,
        entries per_text !! i = Some row /\
        row !! j = Some (mul (dot t e) (exp (logit_scale self))).
Proof.
  intros Htext Himage Hwidth. unfold logits_per_text, matmul.
  replace (Nat.eqb (n_cols text) (n_rows (transpose image))) with true
    by (symmetry; apply Nat.eqb_eq; exact Hwidth).
  cbn [obind]. eexists. split; [reflexivity|].
  destruct Htext as [Hrows Hcols]. pose proof Himage as [Hrows' Hcols'].
  split; [|split; [reflexivity|split; [reflexivity|]]].
  - split; cbn [scale entries n_rows n_cols transpose].
    + by rewrite !length_map.
    + apply Forall_forall. intros row Hrow.
      apply list_elem_of_fmap in Hrow as [row' [-> Hrow]].
      apply list_elem_of_fmap in Hrow as [t [-> _]].
      by rewrite !length_map, length_seq.
  - intros i j t e Hi Hj.
    cbn [scale entries n_rows n_cols transpose].
    rewrite !list_lookup_fmap, Hi. cbn [fmap option_fmap option_map].
    eexists. split; [reflexivity|].
    rewrite !list_lookup_fmap, lookup_seq_lt.
    + cbn [fmap option_fmap option_map].
      cbn [Nat.add].
      by rewrite (column_transpose image j e Himage Hj).
    + rewrite <- Hrows'. by apply lookup_lt_Some in Hj.
Qed.
End LogitsFacts.

(** C6.  When the joint model is called with token ids and pixel values,
    both encoders return, and the two projections have the same output
    dimension.  The embeddings the call returns are the pooled outputs,
    projected and divided by their L2 norm.  Entry [(i, j)] of
    [logits_per_text] is the sum of products of the [i]-th normalized
    text embedding and the [j]-th normalized image embedding, times
    [exp(logit_scale)]: the matrix product with the transposed image
    embeddings, one row for every text and one column for every image.
    [logits_per_image] has the mirrored shape and holds at [(j, i)] what
    [logits_per_text] holds at [(i, j)].  Without [return_loss] the call
    returns no loss.  With [return_loss] and at least one image, the loss
    is half the sum of the mean over the rows of [logits_per_text] of
    [logsumexp(row) - row[i]] (the cross-entropy of row [i] against class
    [i]) and of the same mean over the rows of [logits_per_image]; where
    a row has no entry [i], as happens when the numbers of texts and of
    images differ, the term holds an unchecked read in place of
    [row[i]]. *)
Theorem joint_logits_and_loss `{Memory} (self : CLIPModel)
    (ids : id_batch) (pixels : pixel_batch)
    (text_out image_out : CLIPTextOutput) :
  CLIPTextModel_call (text_model self) ids = Ok text_out ->
  vision_model self pixels = Ok image_out ->
  length (text_projection self) = length (visual_projection self) ->
  let text := embeddings (text_projection self) (pooler_output text_out) in
  let image :=
    embeddings (visual_projection self) (pooler_output image_out) in
  exists per_text,
    logits_per_text self text image = Ok per_text /\
    well_shaped per_text /\
    n_rows per_text = length (pooler_output text_out) /\
    n_cols per_text = length (pooler_output image_out) /\
    (forall i j t e,
        entries text !! i = Some t -> entries image !! j = Some e ->
        exists row,
          entries per_text !! i = Some row /\
          row !! j
          = Some (mul (inner_product t e) (exp (logit_scale self)))) /\
    well_shaped (logits_per_image per_text) /\
    n_rows (logits_per_image per_text) = n_cols per_text /\
    n_cols (logits_per_image per_text) = n_rows per_text /\
    (forall i j row v,
        entries per_text !! i = Some row -> row !! j = Some v ->
        exists col,
          entries (logits_per_image per_text) !! j = Some col /\
          col !! i = Some v) /\
    CLIPModel_call self (Some ids) (Some pixels) false
    = Ok {| loss := None;
            text_embeds := Some text;
            image_embeds := Some image;
            text_model_output := Some text_out;
            vision_model_output := Some image_out |} /\
    (pooler_output image_out <> [] ->
     exists text_losses image_losses,
       length text_losses = n_rows per_text /\
       (forall i row,
           entries per_text !! i = Some row ->
           exists score,
             text_losses !! i = Some (sub (logsumexp row) score) /\
             forall s, row !! i = Some s -> score = s) /\
       length image_losses = n_rows (logits_per_image per_text) /\
       (forall i row,
           entries (logits_per_image per_text) !! i = Some row ->
           exists score,
             image_losses !! i = Some (sub (logsumexp row) score) /\
             forall s, row !! i = Some s -> score = s) /\
       CLIPModel_call self (Some ids) (Some pixels) true
       = Ok {| loss := Some (div (add (mean text_losses) (mean image_losses))
                                 two);
               text_embeds := Some text;
               image_embeds := Some image;
               text_model_output := Some text_out;
               vision_model_output := Some image_out |}).
Proof.
  intros Htext Hvision Hdim text image.
  assert (Hwt : well_shaped text).
  { unfold text. rewrite <- embeddings_model.
    apply well_shaped_normalize, well_shaped_linear. }
  assert (Hwi : well_shaped image).
  { unfold image. rewrite <- embeddings_model.
    apply well_shaped_normalize, well_shaped_linear. }
  destruct (logits_per_text_spec self text image Hwt Hwi Hdim)
    as (per_text & Hlogits & Hwp & Hprows & Hpcols & Hentries).
  exists per_text. split; [exact Hlogits|]. split; [exact Hwp|].
  split; [exact Hprows|]. split; [exact Hpcols|]. split.
  { intros i j t e Hi Hj. rewrite <- dot_inner_product. by apply Hentries. }
  assert (Hwpi : well_shaped (logits_per_image per_text)).
  { split; cbn [logits_per_image transpose entries n_rows n_cols].
    - by rewrite length_map, length_seq.
    - apply Forall_forall. intros col [j [-> _]]%list_elem_of_fmap.
      rewrite column_length. apply Hwp. }
  split; [exact Hwpi|]. split; [reflexivity|]. split; [reflexivity|].
  split; [|split].
  - intros i j row v Hi Hj. by eapply transpose_lookup.
  - unfold CLIPModel_call. rewrite Htext. cbn [obind]. rewrite Hvision.
    cbn [obind]. rewrite !embeddings_model. fold text. fold image.
    rewrite Hlogits. reflexivity.
  - intros Himages.
    pose proof (text_output_nonempty _ _ _ Htext) as Htexts.
    destruct (row_losses_spec (entries per_text) 0) as [Htlen Htl].
    destruct (row_losses_spec (entries (logits_per_image per_text)) 0)
      as [Hilen Hil].
    exists (row_losses 0 (entries per_text)),
           (row_losses 0 (entries (logits_per_image per_text))).
    split; [rewrite Htlen; apply Hwp|]. split; [exact Htl|].
    split; [rewrite Hilen; apply Hwpi|]. split; [exact Hil|].
    unfold CLIPModel_call. rewrite Htext. cbn [obind]. rewrite Hvision.
    cbn [obind]. rewrite !embeddings_model. fold text. fold image.
    rewrite Hlogits. cbn [obind].
    unfold clip_loss, cross_entropy_diagonal.
    cbn [logits_per_image transpose n_rows n_cols].
    rewrite Hprows, Hpcols. cbn [text image embeddings n_rows].
    rewrite (proj2 (Nat.eqb_neq (length (pooler_output text_out)) 0))
      by (by destruct (pooler_output text_out)).
    rewrite (proj2 (Nat.eqb_neq (length (pooler_output image_out)) 0))
      by (by destruct (pooler_output image_out)).
    reflexivity.
Qed.

Lemma joint_logits_and_loss_witness :
  (exists out l,
      CLIPModel_call example_model (Some example_ids) (Some example_pixels)
                     true = Ok out /\
      loss out = Some l /\
      text_model_output out = Some example_text_out) /\
  (exists out l,
      CLIPModel_call example_model (Some example_ids)
                     (Some example_pixels_three) true = Ok out /\
      loss out = Some l).
Proof.
  split.
  - destruct (joint_logits_and_loss example_model example_ids example_pixels
                example_text_out example_image_out eq_refl eq_refl eq_refl)
      as (per_text & _ & _ & _ & _ & _ & _ & _ & _ & _ & _ & Hloss).
    destruct (Hloss ltac:(discriminate))
      as (tl & il & _ & _ & _ & _ & Hcall).
    eexists. eexists. split; [exact Hcall|]. split; reflexivity.
  - destruct (joint_logits_and_loss example_model example_ids
                example_pixels_three example_text_out
                example_image_out_three eq_refl eq_refl eq_refl)
      as (per_text & _ & _ & _ & _ & _ & _ & _ & _ & _ & _ & Hloss).
    destruct (Hloss ltac:(discriminate))
      as (tl & il & _ & _ & _ & _ & Hcall).
    eexists. eexists. split; [exact Hcall|]. reflexivity.
Defined.

(** * Further properties of the tokenizer *)

(** ** What byte-pair merging preserves *)

Lemma str_append_cons x (a b : string) :
  String x a +:+ b = String x (a +:+ b).
Proof. reflexivity. Qed.

Lemma str_append_assoc (a b c : string) : (a +:+ b) +:+ c = a +:+ (b +:+ c).
Proof.
  induction a as [|x a IH]; [done|]. rewrite !str_append_cons. by f_equal.
Qed.

Lemma str_append_nil (a : string) : a +:+ "" = a.
Proof.
  induction a as [|x a IH]; [done|]. rewrite str_append_cons. by f_equal.
Qed.


Lemma str_concat_app (l k : list string) :
  str_concat (l ++ k) = str_concat l +:+ str_concat k.
Proof.
  induction l as [|p l IH]; [done|]. cbn [str_concat app].
  by rewrite IH, str_append_assoc.
Qed.

Lemma str_concat_chars (s : string) : str_concat (chars s) = s.
Proof.
  induction s as [|c s IH]; [done|]. cbn [chars str_concat].
  by rewrite IH.
Qed.

Lemma but_last_last_char c s d :
  last_char (String c s) = Ok d ->
  but_last (String c s) +:+ String d "" = String c s.
Proof.
  revert c. induction s as [|c' s IH]; intros c.
  - simpl. by intros [= ->].
  - intros Hd.
    change (but_last (String c (String c' s)))
      with (String c (but_last (String c' s))).
    rewrite str_append_cons. f_equal. by apply IH.
Qed.

(** The unigrams of a text spell the text followed by the end-of-word
    mark. *)
Lemma unigrams_of_concat text unigrams :
  unigrams_of text = Ok unigrams -> str_concat unigrams = text +:+ "</w>".
Proof.
  unfold unigrams_of. destruct (last_char text) as [d| |] eqn:Hd;
    try discriminate.
  unfold obind. intros [= <-]. rewrite str_concat_app, str_concat_chars.
  cbn [str_concat]. rewrite str_append_nil, <- str_append_assoc.
  destruct text as [|c s]; [discriminate Hd|].
  by rewrite (but_last_last_char c s d Hd).
Qed.

Lemma unigrams_of_pieces text unigrams :
  unigrams_of text = Ok unigrams -> Forall (fun p => p <> EmptyString) unigrams.
Proof.
  unfold unigrams_of. destruct (last_char text) as [d| |]; try discriminate.
  unfold obind. intros [= <-]. apply Forall_app. split.
  - generalize (but_last text). intros s. induction s; simpl; constructor;
      [discriminate|done].
  - constructor; [discriminate|constructor].
Qed.

Lemma merge_occurrences_facts target : forall n unigrams,
  (length unigrams <= n)%nat ->
  str_concat (merge_occurrences target unigrams) = str_concat unigrams /\
  (unigrams <> [] -> merge_occurrences target unigrams <> []) /\
  (Forall (fun p => p <> EmptyString) unigrams ->
   Forall (fun p => p <> EmptyString) (merge_occurrences target unigrams)).
Proof.
  induction n as [|n IH]; intros [|x [|y l]] Hn; simpl in Hn;
    try (split; [reflexivity|split; done]); try lia.
  destruct (IH l ltac:(lia)) as (IHc & _ & IHf).
  destruct (IH (y :: l) ltac:(simpl; lia)) as (IHc' & _ & IHf').
  rewrite merge_occurrences_cons. destruct (pair_eqb (x, y) target).
  - split; [|split; [done|]].
    + cbn [str_concat]. by rewrite IHc, str_append_assoc.
    + intros Hall. inversion Hall as [|? ? Hx Hall']; subst.
      inversion Hall' as [|? ? Hy Hall'']; subst.
      constructor; [|by apply IHf].
      destruct x; [done|discriminate].
  - split; [|split; [done|]].
    + cbn [str_concat] in *. by rewrite IHc'.
    + intros Hall. inversion Hall as [|? ? Hx Hall']; subst.
      constructor; [done|by apply IHf'].
Qed.

(** What the merge loop keeps, from the unigrams to the final sequence. *)
Lemma merges_to_facts ranks unigrams final :
  merges_to ranks unigrams final ->
  str_concat final = str_concat unigrams /\
  (length final <= length unigrams)%nat /\
  (unigrams <> [] -> final <> []) /\
  (Forall (fun p => p <> EmptyString) unigrams ->
   Forall (fun p => p <> EmptyString) final) /\
  (forall p, p ∈ bigrams final -> ranks !! p = None).
Proof.
  induction 1 as [u Hnone|u best Hlow Hrank|u best r final Hlow Hrank _ IH].
  - repeat split; try done. intros p Hp%adjacent_bigrams.
    by destruct (Hnone p).
  - repeat split; try done. intros p Hp%adjacent_bigrams.
    destruct Hlow as [_ Hlow].
    destruct (ranks !! p) as [r|] eqn:Hr; [|done].
    destruct (Hlow p r Hp Hr) as (r' & Hr' & _). congruence.
  - destruct IH as (IHc & IHl & IHn & IHf & IHr).
    destruct (merge_occurrences_facts best _ u (le_n _)) as (Hc & Hn & Hf).
    destruct (merge_occurrences_length best _ u (le_n _)) as [Hlen _].
    repeat split; try done.
    + congruence.
    + lia.
    + auto.
    + auto.
Qed.

(** ** The cache across calls *)

Lemma init_cache_other ranks vocabulary text :
  text <> bos -> text <> eos ->
  _cache (init ranks vocabulary) !! text = None.
Proof.
  intros Hb He. simpl.
  rewrite lookup_insert_ne by done. rewrite lookup_insert_ne by done.
  apply lookup_empty.
Qed.

Section StateFacts.
Context `{PySet}.

(** On a text the cache does not hold, what [bpe] returns depends on the
    merge table alone. *)
Lemma bpe_miss_outcome s1 s2 text :
  _cache s1 !! text = None -> _cache s2 !! text = None ->
  bpe_ranks s1 = bpe_ranks s2 ->
  fst (bpe text s1) = fst (bpe text s2).
Proof.
  intros H1 H2 Hr. unfold bpe. rewrite H1, H2, Hr.
  destruct (unigrams_of text) as [u| |]; try done.
  destruct (set_iter (bigrams u)); try done.
  by destruct (bpe_loop (bpe_ranks s2) (length u) u).
Qed.

Lemma bpe_tables text self :
  bpe_ranks (snd (bpe text self)) = bpe_ranks self /\
  vocab (snd (bpe text self)) = vocab self.
Proof.
  unfold bpe. destruct (_cache self !! text); [done|].
  destruct (unigrams_of text) as [u| |]; try done.
  destruct (set_iter (bigrams u)); try done.
  by destruct (bpe_loop (bpe_ranks self) (length u) u).
Qed.

Lemma sound_init ranks vocabulary : sound (init ranks vocabulary).
Proof.
  split; [reflexivity|]. split; [reflexivity|].
  intros text cached Hc. simpl bpe_ranks. simpl vocab.
  by rewrite (bpe_hit _ _ _ Hc).
Qed.

(** On a sound object [bpe] returns what it returns on a fresh one. *)
Lemma bpe_sound_fresh self text :
  sound self ->
  fst (bpe text self)
  = fst (bpe text (init (bpe_ranks self) (vocab self))).
Proof.
  intros (Hbos & Heos & Hall).
  destruct (_cache self !! text) as [cached|] eqn:Hc.
  - rewrite (bpe_hit _ _ _ Hc). simpl. symmetry. by apply Hall.
  - apply bpe_miss_outcome; [done| |done].
    apply init_cache_other; intros ->; congruence.
Qed.

Lemma bpe_keeps_sound self text : sound self -> sound (snd (bpe text self)).
Proof.
  intros Hs. pose proof Hs as (Hbos & Heos & Hall).
  destruct (_cache self !! text) as [cached|] eqn:Hc.
  { by rewrite (bpe_hit _ _ _ Hc). }
  destruct (bpe_miss self text Hc)
    as [[-> Hb] | [(u & _ & _ & _ & Hb)
                  | (u & final & _ & _ & _ & _ & Hb)]];
    rewrite Hb; try done.
  assert (Hfresh : fst (bpe text (init (bpe_ranks self) (vocab self)))
                   = Ok (PyList final)).
  { rewrite <- (bpe_sound_fresh self text Hs). by rewrite Hb. }
  unfold sound. simpl. split; [|split].
  - rewrite lookup_insert_ne; [done|]. intros ->. congruence.
  - rewrite lookup_insert_ne; [done|]. intros ->. congruence.
  - intros k cached. destruct (decide (text = k)) as [<-|Hne].
    + rewrite lookup_insert_eq. by intros [= <-].
    + rewrite lookup_insert_ne by done. apply Hall.
Qed.

Lemma transparent_ret {A} (a : A) : transparent (ret a).
Proof. intros s Hs. by split; [|split; [|split]]. Qed.

Lemma transparent_raise {A} (e : exn) :
  transparent (fun self => (@Raise A e, self)).
Proof. intros s Hs. by split; [|split; [|split]]. Qed.

Lemma transparent_bind {A B} (m : M A) (k : A -> M B) :
  transparent m -> (forall a, transparent (k a)) -> transparent (bind m k).
Proof.
  intros Hm Hk s Hs. destruct (Hm s Hs) as (Hs1 & Hr1 & Hv1 & Hsame).
  assert (Hstep : forall t, sound t -> bpe_ranks t = bpe_ranks s ->
                    vocab t = vocab s ->
                    sound (snd (bind m k t)) /\
                    bpe_ranks (snd (bind m k t)) = bpe_ranks s /\
                    vocab (snd (bind m k t)) = vocab s /\
                    fst (bind m k t) = fst (bind m k s)).
  { intros t Ht Hrt Hvt.
    destruct (Hm t Ht) as (Ht1 & Hrt1 & Hvt1 & _).
    pose proof (Hsame t Ht Hrt Hvt) as Hfst.
    unfold bind. destruct (m t) as [ot t1], (m s) as [os s1].
    simpl in *. subst ot.
    destruct os as [a| |]; simpl;
      try (split; [done|split; [congruence|split; [congruence|done]]]).
    destruct (Hk a s1 Hs1) as (_ & _ & _ & Hsame').
    destruct (Hk a t1 Ht1) as (Ht2 & Hrt2 & Hvt2 & _).
    split; [done|]. split; [congruence|]. split; [congruence|].
    apply Hsame'; congruence. }
  destruct (Hstep s Hs eq_refl eq_refl) as (H1 & H2 & H3 & _).
  split; [done|]. split; [done|]. split; [done|].
  intros s' Hs' Hr' Hv'. by destruct (Hstep s' Hs' Hr' Hv') as (_ & _ & _ & ?).
Qed.

Lemma transparent_bpe text : transparent (bpe text).
Proof.
  intros s Hs. destruct (bpe_tables text s) as [Hr Hv].
  split; [by apply bpe_keeps_sound|]. split; [done|]. split; [done|].
  intros s' Hs' Hr' Hv'.
  rewrite (bpe_sound_fresh s' text Hs'), (bpe_sound_fresh s text Hs).
  by rewrite Hr', Hv'.
Qed.

Lemma transparent_vocab_get t : transparent (vocab_get t).
Proof.
  intros s Hs. unfold vocab_get.
  split; [by destruct (vocab s !! t)|].
  split; [by destruct (vocab s !! t)|].
  split; [by destruct (vocab s !! t)|].
  intros s' _ _ ->. by destruct (vocab s !! t).
Qed.

Lemma transparent_bpe_tokens tokens : transparent (bpe_tokens tokens).
Proof.
  induction tokens as [|t tokens IH]; simpl; [apply transparent_ret|].
  apply transparent_bind; [apply transparent_bpe|]. intros pieces.
  apply transparent_bind; [exact IH|]. intros more. apply transparent_ret.
Qed.

Lemma transparent_vocab_ids sub_tokens : transparent (vocab_ids sub_tokens).
Proof.
  induction sub_tokens as [|t sub_tokens IH]; simpl; [apply transparent_ret|].
  apply transparent_bind; [apply transparent_vocab_get|]. intros i.
  apply transparent_bind; [exact IH|]. intros more. apply transparent_ret.
Qed.

Context `{UnicodeTables}.

Lemma transparent_tokenize text prepend_bos append_eos :
  transparent (tokenize text prepend_bos append_eos).
Proof.
  unfold tokenize.
  apply transparent_bind; [apply transparent_bpe_tokens|]. intros sub_tokens.
  apply transparent_bind; [apply transparent_vocab_ids|]. intros ids.
  apply transparent_bind.
  { destruct prepend_bos; [|apply transparent_ret].
    apply transparent_bind; [apply transparent_vocab_get|].
    intros b. apply transparent_ret. }
  intros ids'. apply transparent_bind; [|intros; apply transparent_ret].
  destruct append_eos; [|apply transparent_ret].
  apply transparent_bind; [apply transparent_vocab_get|].
  intros e. apply transparent_ret.
Qed.

Lemma transparent_tokenize_each texts prepend_bos append_eos :
  transparent (tokenize_each texts prepend_bos append_eos).
Proof.
  induction texts as [|t texts IH]; simpl; [apply transparent_ret|].
  apply transparent_bind; [apply transparent_tokenize|]. intros row.
  apply transparent_bind; [exact IH|]. intros rows. apply transparent_ret.
Qed.

Lemma transparent_tokenize_list texts prepend_bos append_eos :
  transparent (tokenize_list texts prepend_bos append_eos).
Proof.
  unfold tokenize_list.
  apply transparent_bind; [apply transparent_tokenize_each|]. intros rows.
  destruct (same_lengths rows);
    [apply transparent_ret|apply transparent_raise].
Qed.
End StateFacts.

Lemma grown_by_refl texts s : grown_by texts s s.
Proof. split; [done|]. split; [done|]. intros k. by left. Qed.

Lemma grown_by_trans texts s1 s2 s3 :
  grown_by texts s1 s2 -> grown_by texts s2 s3 -> grown_by texts s1 s3.
Proof.
  intros (Hr12 & Hv12 & Hc12) (Hr23 & Hv23 & Hc23).
  split; [congruence|]. split; [congruence|]. intros k.
  destruct (Hc23 k) as [E23|(N23 & Hin & Hlen & pieces & Hp)],
           (Hc12 k) as [E12|(N12 & Hin' & Hlen' & pieces' & Hp')].
  - left. congruence.
  - right. repeat split; try done. exists pieces'. congruence.
  - right. repeat split; try done; [congruence|]. by exists pieces.
  - congruence.
Qed.

Section GrowthFacts.
Context `{PySet}.

Lemma grows_ret {A} texts (a : A) : grows texts (ret a).
Proof. intros s. apply grown_by_refl. Qed.

Lemma grows_bind {A B} texts (m : M A) (k : A -> M B) :
  grows texts m -> (forall a, grows texts (k a)) -> grows texts (bind m k).
Proof.
  intros Hm Hk s. specialize (Hm s). unfold bind.
  destruct (m s) as [[a| |] s1]; simpl in *; try done.
  eapply grown_by_trans; [exact Hm|apply Hk].
Qed.

Lemma grows_vocab_get texts t : grows texts (vocab_get t).
Proof.
  intros s. unfold vocab_get. destruct (vocab s !! t); apply grown_by_refl.
Qed.

Lemma grows_bpe texts text : text ∈ texts -> grows texts (bpe text).
Proof.
  intros Hin s. destruct (_cache s !! text) as [cached|] eqn:Hc.
  { rewrite (bpe_hit _ _ _ Hc). apply grown_by_refl. }
  destruct (bpe_miss s text Hc)
    as [[-> Hb] | [(u & _ & _ & _ & Hb)
                  | (u & final & _ & _ & Hlen & _ & Hb)]];
    rewrite Hb; try apply grown_by_refl.
  split; [done|]. split; [done|]. intros k. simpl.
  destruct (decide (text = k)) as [<-|Hne].
  - right. repeat split; try done. exists final. apply lookup_insert_eq.
  - left. by rewrite lookup_insert_ne.
Qed.

Lemma grows_bpe_tokens texts tokens :
  tokens ⊆ texts -> grows texts (bpe_tokens tokens).
Proof.
  induction tokens as [|t tokens IH]; intros Hsub; simpl; [apply grows_ret|].
  apply grows_bind.
  { apply grows_bpe, Hsub. apply elem_of_cons. by left. }
  intros pieces. apply grows_bind; [|intros; apply grows_ret].
  apply IH. intros x Hx. apply Hsub. apply elem_of_cons. by right.
Qed.

Lemma grows_vocab_ids texts sub_tokens : grows texts (vocab_ids sub_tokens).
Proof.
  induction sub_tokens as [|t sub_tokens IH]; simpl; [apply grows_ret|].
  apply grows_bind; [apply grows_vocab_get|]. intros i.
  apply grows_bind; [exact IH|]. intros; apply grows_ret.
Qed.

Context `{UnicodeTables}.

Lemma grows_tokenize text prepend_bos append_eos :
  grows (coarse_tokens text) (tokenize text prepend_bos append_eos).
Proof.
  unfold tokenize.
  apply grows_bind; [by apply grows_bpe_tokens|]. intros sub_tokens.
  apply grows_bind; [apply grows_vocab_ids|]. intros ids.
  apply grows_bind.
  { destruct prepend_bos; [|apply grows_ret].
    apply grows_bind; [apply grows_vocab_get|]. intros; apply grows_ret. }
  intros ids'. apply grows_bind; [|intros; apply grows_ret].
  destruct append_eos; [|apply grows_ret].
  apply grows_bind; [apply grows_vocab_get|]. intros; apply grows_ret.
Qed.
End GrowthFacts.

Section BpeResults.
Context `{PySet}.

(** What [bpe] returns for a token other than the markers, on a sound
    object: a sequence the merge loop reaches from the token's unigrams. *)
Lemma bpe_sound_spec self text :
  sound self -> text <> EmptyString -> text <> bos -> text <> eos ->
  exists unigrams final,
    unigrams_of text = Ok unigrams /\
    length unigrams = String.length text /\
    fst (bpe text self) = Ok (PyList final) /\
    merges_to (bpe_ranks self) unigrams final.
Proof.
  intros Hs Hne Hb He. rewrite (bpe_sound_fresh self text Hs).
  set (fresh := init (bpe_ranks self) (vocab self)).
  assert (Hc : _cache fresh !! text = None) by by apply init_cache_other.
  destruct (unigrams_of_nonempty text) as (u & Hu & Hlen).
  { destruct text; [done|simpl; lia]. }
  destruct (bpe_miss fresh text Hc)
    as [[-> _] | [(u' & Hu' & Hbi & _ & Hrun)
                 | (u' & final & Hu' & _ & _ & Hspec & Hrun)]]; [done| |].
  - assert (u' = u) as -> by congruence.
    exists u, u. rewrite Hrun. repeat split; try done.
    by apply merges_none, no_adjacent.
  - assert (u' = u) as -> by congruence.
    exists u, final. rewrite Hrun. by repeat split.
Qed.
End BpeResults.

(** X1.  Byte-pair merging loses nothing: on a sound object, the
    sub-tokens [bpe] returns for a non-empty token other than the two
    markers, joined together, spell the token followed by ["</w>"]. *)
Theorem bpe_lossless `{PySet} (self : CLIPTokenizer) (text : string) :
  sound self -> text <> EmptyString -> text <> bos -> text <> eos ->
  exists pieces,
    fst (bpe text self) = Ok (PyList pieces) /\
    str_concat pieces = text +:+ "</w>".
Proof.
  intros Hs Hne Hb He.
  destruct (bpe_sound_spec self text Hs Hne Hb He)
    as (u & final & Hu & _ & Hrun & Hspec).
  exists final. split; [done|].
  destruct (merges_to_facts _ _ _ Hspec) as (Hc & _).
  rewrite Hc. by apply unigrams_of_concat.
Qed.

Lemma bpe_lossless_witness :
  exists pieces,
    fst (bpe "abab" (init example_ranks example_vocab)) = Ok (PyList pieces) /\
    str_concat pieces = "abab</w>".
Proof.
  apply (bpe_lossless (init example_ranks example_vocab) "abab").
  - apply sound_init.
  - discriminate.
  - discriminate.
  - discriminate.
Defined.



(** X3.  On a sound object, [bpe] returns for a non-empty token other than
    the markers at least one sub-token and at most as many as the token
    has characters, none of them empty. *)
Theorem bpe_piece_count `{PySet} (self : CLIPTokenizer) (text : string) :
  sound self -> text <> EmptyString -> text <> bos -> text <> eos ->
  exists pieces,
    fst (bpe text self) = Ok (PyList pieces) /\
    (1 <= length pieces <= String.length text)%nat /\
    Forall (fun p => p <> EmptyString) pieces.
Proof.
  intros Hs Hne Hb He.
  destruct (bpe_sound_spec self text Hs Hne Hb He)
    as (u & final & Hu & Hlen & Hrun & Hspec).
  exists final. split; [done|].
  destruct (merges_to_facts _ _ _ Hspec) as (_ & Hle & Hnil & Hpieces & _).
  split; [|exact (Hpieces (unigrams_of_pieces _ _ Hu))].
  split; [|lia].
  assert (u <> []).
  { intros ->. destruct text; [done|simpl in Hlen; lia]. }
  specialize (Hnil ltac:(done)). destruct final; [done|simpl; lia].
Qed.

Lemma bpe_piece_count_witness :
  exists pieces,
    fst (bpe "abab" (init example_ranks example_vocab)) = Ok (PyList pieces) /\
    (1 <= length pieces <= 4)%nat /\
    Forall (fun p => p <> EmptyString) pieces.
Proof.
  apply (bpe_piece_count (init example_ranks example_vocab) "abab").
  - apply sound_init.
  - discriminate.
  - discriminate.
  - discriminate.
Defined.

(** ** Independence of the iteration order of sets *)

Lemma lowest_rank_unique ranks unigrams best best' r :
  distinct_ranks ranks ->
  lowest_rank ranks unigrams best -> lowest_rank ranks unigrams best' ->
  ranks !! best = Some r ->
  best = best'.
Proof.
  intros Hd [Hin Hlow] [Hin' Hlow'] Hr.
  destruct (Hlow' best r Hin Hr) as (r' & Hr' & Hle').
  destruct (Hlow best' r' Hin' Hr') as (r0 & Hr0 & Hle).
  assert (r0 = r) as -> by congruence.
  apply (Hd best best' r); [done|]. rewrite Hr'. f_equal. lia.
Qed.

Lemma lowest_rank_unranked ranks unigrams best pair :
  lowest_rank ranks unigrams best -> ranks !! best = None ->
  adjacent unigrams pair -> ranks !! pair = None.
Proof.
  intros [_ Hlow] Hr Hin.
  destruct (ranks !! pair) as [r|] eqn:Hp; [|done].
  destruct (Hlow pair r Hin Hp) as (r' & Hr' & _). congruence.
Qed.

Lemma bpe_loop_any_order (S1 S2 : PySet) ranks :
  distinct_ranks ranks ->
  forall fuel unigrams,
    @bpe_loop S1 ranks fuel unigrams = @bpe_loop S2 ranks fuel unigrams.
Proof.
  intros Hd. induction fuel as [|fuel IH]; intros u; cbn [bpe_loop];
    destruct (@set_iter S1 (bigrams u)) as [|f1 o1] eqn:H1,
             (@set_iter S2 (bigrams u)) as [|f2 o2] eqn:H2; try done;
    try (apply (proj1 (@set_iter_nil_iff S1 _)) in H1;
         apply (proj2 (@set_iter_nil_iff S2 _)) in H1; congruence);
    try (apply (proj1 (@set_iter_nil_iff S2 _)) in H2;
         apply (proj2 (@set_iter_nil_iff S1 _)) in H2; congruence).
  all: pose proof (@selected_lowest S1 ranks u f1 o1 H1) as L1.
  all: pose proof (@selected_lowest S2 ranks u f2 o2 H2) as L2.
  all: set (b1 := py_min (rank_of ranks) f1 o1) in *.
  all: set (b2 := py_min (rank_of ranks) f2 o2) in *.
  all: destruct (ranks !! b1) as [r1|] eqn:R1,
                (ranks !! b2) as [r2|] eqn:R2; try done.
  all: try (rewrite (lowest_rank_unranked _ _ _ _ L2 R2 (proj1 L1)) in R1;
            discriminate).
  all: try (rewrite (lowest_rank_unranked _ _ _ _ L1 R1 (proj1 L2)) in R2;
            discriminate).
  rewrite (lowest_rank_unique _ _ _ _ _ Hd L1 L2 R1).
  destruct (merge_pass b2 u); cbn [obind]; done.
Qed.

Lemma bpe_any_order (S1 S2 : PySet) text self :
  distinct_ranks (bpe_ranks self) ->
  @bpe S1 text self = @bpe S2 text self.
Proof.
  intros Hd. unfold bpe. destruct (_cache self !! text); [done|].
  destruct (unigrams_of text) as [u| |]; try done.
  rewrite (bpe_loop_any_order S1 S2 _ Hd).
  destruct (@set_iter S1 (bigrams u)) as [|f1 o1] eqn:H1,
           (@set_iter S2 (bigrams u)) as [|f2 o2] eqn:H2; try done.
  - apply (proj1 (@set_iter_nil_iff S1 _)) in H1.
    apply (proj2 (@set_iter_nil_iff S2 _)) in H1. congruence.
  - apply (proj1 (@set_iter_nil_iff S2 _)) in H2.
    apply (proj2 (@set_iter_nil_iff S1 _)) in H2. congruence.
Qed.

Lemma bpe_tokens_any_order (S1 S2 : PySet) tokens : forall self,
  distinct_ranks (bpe_ranks self) ->
  @bpe_tokens S1 tokens self = @bpe_tokens S2 tokens self.
Proof.
  induction tokens as [|t tokens IH]; intros self Hd; [done|].
  cbn [bpe_tokens]. unfold bind. rewrite (bpe_any_order S1 S2 t self Hd).
  pose proof (proj1 (@bpe_tables S2 t self)) as Hr.
  destruct (@bpe S2 t self) as [[v| |] s1]; try done.
  simpl in Hr. rewrite IH; [done|]. by rewrite Hr.
Qed.

(** X4.  When no two pairs of the merge table share a rank, [tokenize]
    does not depend on the order in which Python iterates over the set
    of bigrams: under any two orders it returns the same outcome and
    leaves the same object. *)
Theorem tokenize_any_set_order (S1 S2 : PySet) `{UnicodeTables}
    (self : CLIPTokenizer) (text : string) (prepend_bos append_eos : bool) :
  distinct_ranks (bpe_ranks self) ->
  @tokenize S1 _ text prepend_bos append_eos self
  = @tokenize S2 _ text prepend_bos append_eos self.
Proof.
  intros Hd. unfold tokenize, bind.
  by rewrite (bpe_tokens_any_order S1 S2 _ self Hd).
Qed.

Lemma distinct_ranks_example : distinct_ranks example_ranks.
Proof.
  intros p q r Hp Hq. unfold example_ranks in *.
  apply lookup_singleton_Some in Hp as [<- _].
  by apply lookup_singleton_Some in Hq as [<- _].
Qed.

Lemma tokenize_any_set_order_witness :
  @tokenize first_seen_set _ "abab ab" true true
            (init example_ranks example_vocab)
  = @tokenize last_seen_set _ "abab ab" true true
              (init example_ranks example_vocab).
Proof.
  apply (tokenize_any_set_order first_seen_set last_seen_set).
  apply distinct_ranks_example.
Defined.

(** ** The outcome of [tokenize] *)

Lemma vocab_ids_run `{PySet} sub_tokens self :
  vocab_ids sub_tokens self = (lookup_ids (vocab self) sub_tokens, self).
Proof.
  induction sub_tokens as [|t sub_tokens IH]; [done|].
  cbn [vocab_ids lookup_ids]. unfold bind, vocab_get.
  destruct (vocab self !! t); [|done]. rewrite IH.
  by destruct (lookup_ids (vocab self) sub_tokens).
Qed.

Lemma lookup_ids_Ok vocabulary sub_tokens : forall ids,
  lookup_ids vocabulary sub_tokens = Ok ids <->
  Forall2 (fun k i => vocabulary !! k = Some i) sub_tokens ids.
Proof.
  induction sub_tokens as [|t sub_tokens IH]; intros ids; cbn [lookup_ids].
  - split; [intros [= <-]; constructor|by inversion 1].
  - destruct (vocabulary !! t) as [i|] eqn:Ht.
    + destruct (lookup_ids vocabulary sub_tokens) as [more| |] eqn:Hmore;
        cbn [obind]; split; try discriminate.
      * intros [= <-]. constructor; [done|]. by apply IH.
      * inversion 1 as [|? i' ? more' Hi Hrest]; subst.
        apply IH in Hrest. congruence.
      * inversion 1 as [|? i' ? more' Hi Hrest]; subst.
        apply IH in Hrest. congruence.
      * inversion 1 as [|? i' ? more' Hi Hrest]; subst.
        apply IH in Hrest. congruence.
    + split; [discriminate|]. inversion 1; congruence.
Qed.

Lemma lookup_ids_known vocabulary sub_tokens :
  Forall (fun k => is_Some (vocabulary !! k)) sub_tokens ->
  exists ids, lookup_ids vocabulary sub_tokens = Ok ids.
Proof.
  induction 1 as [|t sub_tokens [i Hi] _ [ids IH]]; [by exists []|].
  exists (i :: ids). cbn [lookup_ids]. by rewrite Hi, IH.
Qed.

Lemma lookup_ids_missing vocabulary known t rest :
  Forall (fun k => is_Some (vocabulary !! k)) known ->
  vocabulary !! t = None ->
  lookup_ids vocabulary (known ++ t :: rest) = Raise (KeyError t).
Proof.
  induction 1 as [|k known [i Hi] _ IH]; intros Ht; cbn [app lookup_ids].
  - by rewrite Ht.
  - by rewrite Hi, IH.
Qed.

Section TokenizeOutcome.
Context `{PySet}.

Lemma bpe_returns text self :
  text <> EmptyString -> exists v after, bpe text self = (Ok v, after).
Proof.
  intros Hne. destruct (_cache self !! text) as [cached|] eqn:Hc.
  { rewrite (bpe_hit _ _ _ Hc). eauto. }
  destruct (bpe_miss self text Hc)
    as [[-> _] | [(u & _ & _ & _ & Hb)
                 | (u & final & _ & _ & _ & _ & Hb)]];
    [done| |]; rewrite Hb; eauto.
Qed.

Lemma bpe_tokens_returns tokens : forall self,
  Forall (fun t => t <> EmptyString) tokens ->
  exists sub_tokens after, bpe_tokens tokens self = (Ok sub_tokens, after).
Proof.
  induction tokens as [|t tokens IH]; intros self Hall.
  - by exists [], self.
  - inversion Hall as [|? ? Ht Hall']; subst.
    destruct (bpe_returns t self Ht) as (v & s1 & Hv).
    destruct (IH s1 Hall') as (more & s2 & Hmore).
    exists (py_iter v ++ more), s2.
    cbn [bpe_tokens]. unfold bind. by rewrite Hv, Hmore.
Qed.

Context `{UnicodeTables}.

(** [tokenize] in two phases: the splitting, which alone touches the
    object, and the lookups in the vocabulary. *)
Lemma tokenize_phases text prepend_bos append_eos self sub_tokens after :
  bpe_tokens (coarse_tokens text) self = (Ok sub_tokens, after) ->
  tokenize text prepend_bos append_eos self
  = (obind (lookup_ids (vocab self) sub_tokens) (fun ids =>
     obind (if prepend_bos
            then match vocab self !! bos with
                 | Some b => Ok ([b] ++ ids)
                 | None => Raise (KeyError bos)
                 end
            else Ok ids) (fun ids =>
     if append_eos
     then match vocab self !! eos with
          | Some e => Ok (ids ++ [e])
          | None => Raise (KeyError eos)
          end
     else Ok ids)), after).
Proof.
  intros Hsplit.
  assert (Hv : vocab after = vocab self).
  { pose proof (grows_bpe_tokens (coarse_tokens text) (coarse_tokens text)
                  ltac:(done) self) as (_ & Hv & _).
    by rewrite Hsplit in Hv. }
  unfold tokenize, bind. rewrite Hsplit, vocab_ids_run, Hv.
  destruct (lookup_ids (vocab self) sub_tokens) as [ids| |]; try done.
  cbn [obind]. unfold bos_token, eos_token, vocab_get, ret. rewrite ?Hv.
  destruct prepend_bos, append_eos; cbn [obind]; rewrite ?Hv;
    repeat (destruct (vocab self !! _); cbn [obind]; rewrite ?Hv); done.
Qed.
End TokenizeOutcome.

(** X5.  The cache only grows, and the tables never change: after a call
    of [tokenize] the merge table and the vocabulary are what they were,
    every entry the cache held is still there unchanged, and every new
    entry is for a coarse token of the text, of two or more characters,
    and holds a list. *)
Theorem tokenize_cache_append_only `{PySet} `{UnicodeTables}
    (self : CLIPTokenizer) (text : string) (prepend_bos append_eos : bool) :
  let after := snd (tokenize text prepend_bos append_eos self) in
  bpe_ranks after = bpe_ranks self /\
  vocab after = vocab self /\
  (forall k v, _cache self !! k = Some v -> _cache after !! k = Some v) /\
  (forall k v, _cache self !! k = None -> _cache after !! k = Some v ->
               k ∈ coarse_tokens text /\ (2 <= String.length k)%nat /\
               exists pieces, v = PyList pieces).
Proof.
  intros after.
  destruct (grows_tokenize text prepend_bos append_eos self)
    as (Hr & Hv & Hc).
  fold after in Hr, Hv, Hc. split; [done|]. split; [done|]. split.
  - intros k v Hk.
    destruct (Hc k) as [E|(N & _)]; congruence.
  - intros k v Hk Hk'.
    destruct (Hc k) as [E|(_ & Hin & Hlen & pieces & Hp)]; [congruence|].
    repeat split; try done. exists pieces. congruence.
Qed.

(** X6.  Memoization is invisible: an object fresh from [__init__] is
    sound, [tokenize] leaves a sound object sound, and on a sound object it
    returns for every text what a fresh tokenizer with the same tables
    returns. *)
Theorem tokenize_cache_transparent `{PySet} `{UnicodeTables}
    (self : CLIPTokenizer) (text : string) (prepend_bos append_eos : bool) :
  sound self ->
  sound (init (bpe_ranks self) (vocab self)) /\
  sound (snd (tokenize text prepend_bos append_eos self)) /\
  fst (tokenize text prepend_bos append_eos self)
  = fst (tokenize text prepend_bos append_eos
                  (init (bpe_ranks self) (vocab self))).
Proof.
  intros Hs. split; [apply sound_init|].
  destruct (transparent_tokenize text prepend_bos append_eos self Hs)
    as (Hs' & _ & _ & _).
  split; [done|].
  destruct (transparent_tokenize text prepend_bos append_eos
              (init (bpe_ranks self) (vocab self)) (sound_init _ _))
    as (_ & _ & _ & Hsame).
  by apply Hsame.
Qed.

Lemma tokenize_cache_transparent_witness :
  let used := snd (tokenize "abab ab" true true
                            (init example_ranks example_vocab)) in
  sound (snd (tokenize "ab a" true true used)) /\
  fst (tokenize "ab a" true true used)
  = fst (tokenize "ab a" true true (init example_ranks example_vocab)).
Proof.
  intros used.
  assert (Hused : sound used).
  { apply (tokenize_cache_transparent (init example_ranks example_vocab)).
    apply sound_init. }
  destruct (tokenize_cache_transparent used "ab a" true true Hused)
    as (_ & Hs & Hsame).
  split; [exact Hs|]. rewrite Hsame.
  destruct (grows_tokenize "abab ab" true true
              (init example_ranks example_vocab)) as (Hr & Hv & _).
  fold used in Hr, Hv. by rewrite Hr, Hv.
Defined.

(** X7.  The two markers are added around what the text alone yields: if
    [tokenize] without markers returns [ids], and the vocabulary holds the
    markers, then with [prepend_bos] it returns [bos_token] followed by
    [ids], with [append_eos] it returns [ids] followed by [eos_token], with
    both it returns both around [ids]; and each call leaves the object as
    the call without markers does. *)
Theorem tokenize_markers `{PySet} `{UnicodeTables}
    (self after : CLIPTokenizer) (text : string) (ids : list Z) (b e : Z) :
  tokenize text false false self = (Ok ids, after) ->
  vocab self !! bos = Some b ->
  vocab self !! eos = Some e ->
  tokenize text true false self = (Ok (b :: ids), after) /\
  tokenize text false true self = (Ok (ids ++ [e]), after) /\
  tokenize text true true self = (Ok (b :: ids ++ [e]), after).
Proof.
  intros Hplain Hb He.
  destruct (bpe_tokens_returns (coarse_tokens text) self)
    as (subs & s1 & Hsplit).
  { apply Forall_forall. intros t. apply coarse_tokens_nonempty. }
  rewrite (tokenize_phases _ _ _ _ _ _ Hsplit) in Hplain.
  rewrite !(tokenize_phases _ _ _ _ _ _ Hsplit), Hb, He.
  destruct (lookup_ids (vocab self) subs) as [ids'| |];
    cbn [obind] in *; try discriminate.
  by injection Hplain as -> ->.
Qed.

Lemma tokenize_markers_witness :
  tokenize "ab" true true (init example_ranks example_vocab)
  = (Ok [6; 5; 7]%Z,
     snd (tokenize "ab" false false (init example_ranks example_vocab))).
Proof.
  apply (tokenize_markers (init example_ranks example_vocab) _ "ab" [5%Z]);
    reflexivity.
Defined.

(** X8.  [tokenize] never fails while splitting, and the lookups fail in
    no other way than by a [KeyError]: the sub-tokens are computed and
    the cache is left as the splitting left it, whatever the outcome.  If
    a sub-token is not in the vocabulary, the call raises the [KeyError]
    of the first such sub-token; otherwise it raises the [KeyError] of
    a marker that is asked for and missing; otherwise, when every id of
    the vocabulary is a 32-bit integer, the list handed to [mx.array]
    holds the ids of the sub-tokens, in order, between the markers asked
    for, each of them a 32-bit integer, and is what the call returns. *)
Theorem tokenize_key_error `{PySet} `{UnicodeTables}
    (self : CLIPTokenizer) (text : string) (prepend_bos append_eos : bool) :
  exists sub_tokens after,
    bpe_tokens (coarse_tokens text) self = (Ok sub_tokens, after) /\
    snd (tokenize text prepend_bos append_eos self) = after /\
    (forall known t rest,
        sub_tokens = known ++ t :: rest ->
        Forall (fun k => is_Some (vocab self !! k)) known ->
        vocab self !! t = None ->
        fst (tokenize text prepend_bos append_eos self)
        = Raise (KeyError t)) /\
    (Forall (fun k => is_Some (vocab self !! k)) sub_tokens ->
     (prepend_bos = true -> vocab self !! bos = None ->
      fst (tokenize text prepend_bos append_eos self)
      = Raise (KeyError bos)) /\
     (append_eos = true ->
      (prepend_bos = true -> is_Some (vocab self !! bos)) ->
      vocab self !! eos = None ->
      fst (tokenize text prepend_bos append_eos self)
      = Raise (KeyError eos)) /\
     ((prepend_bos = true -> is_Some (vocab self !! bos)) ->
      (append_eos = true -> is_Some (vocab self !! eos)) ->
      ids_fit (vocab self) ->
      exists ids tokens,
        Forall2 (fun k i => vocab self !! k = Some i) sub_tokens ids /\
        tokens = (if prepend_bos
                  then default [] ((fun b => [b]) <$> vocab self !! bos)
                  else [])
                 ++ ids
                 ++ (if append_eos
                     then default [] ((fun e => [e]) <$> vocab self !! eos)
                     else []) /\
        Forall int32 tokens /\
        fst (tokenize text prepend_bos append_eos self) = Ok tokens)).
Proof.
  destruct (bpe_tokens_returns (coarse_tokens text) self)
    as (subs & after & Hsplit).
  { apply Forall_forall. intros t. apply coarse_tokens_nonempty. }
  exists subs, after. split; [done|].
  rewrite (tokenize_phases _ _ _ _ _ _ Hsplit). cbn [fst snd].
  split; [done|]. split.
  - intros known t rest -> Hknown Ht.
    by rewrite (lookup_ids_missing _ _ _ _ Hknown Ht).
  - intros Hall. destruct (lookup_ids_known _ _ Hall) as [ids Hids].
    rewrite Hids. cbn [obind]. split; [|split].
    + intros -> Hb. by rewrite Hb.
    + intros -> Hbos He. destruct prepend_bos.
      * destruct (Hbos eq_refl) as [b Hb]. rewrite Hb. cbn [obind].
        by rewrite He.
      * cbn [obind]. by rewrite He.
    + intros Hbos Heos Hfit. exists ids. eexists.
      pose proof (proj1 (lookup_ids_Ok _ _ _) Hids) as Hlook.
      split; [exact Hlook|]. split; [reflexivity|].
      assert (Hids32 : Forall int32 ids).
      { clear -Hlook Hfit. induction Hlook as [|k i ks is_ Hk _ IH];
          constructor; [by eapply Hfit|done]. }
      destruct prepend_bos, append_eos.
      * destruct (Hbos eq_refl) as [b Hb], (Heos eq_refl) as [e He].
        rewrite Hb. cbn [obind]. rewrite He. simpl. split; [|done].
        constructor; [by eapply Hfit|]. apply Forall_app. split; [done|].
        constructor; [by eapply Hfit|done].
      * destruct (Hbos eq_refl) as [b Hb]. rewrite Hb. cbn [obind].
        simpl. rewrite app_nil_r. split; [|done].
        constructor; [by eapply Hfit|done].
      * destruct (Heos eq_refl) as [e He]. cbn [obind]. rewrite He.
        simpl. split; [|done]. apply Forall_app. split; [done|].
        constructor; [by eapply Hfit|done].
      * cbn [obind]. simpl. rewrite app_nil_r. by split.
Qed.

Lemma ids_fit_example : ids_fit example_vocab.
Proof.
  intros k id Hk. unfold example_vocab in Hk.
  apply elem_of_list_to_map_2 in Hk.
  repeat (apply elem_of_cons in Hk as [[= -> ->]|Hk];
          [unfold int32; lia|]).
  by apply elem_of_nil in Hk.
Qed.

Lemma tokenize_key_error_witness :
  fst (tokenize "ab" true true (init example_ranks example_vocab))
  = Ok [6; 5; 7]%Z /\
  Forall int32 [6; 5; 7]%Z.
Proof.
  destruct (tokenize_key_error (init example_ranks example_vocab) "ab"
              true true) as (sub_tokens & after & Hsplit & _ & _ & Hknown).
  vm_compute in Hsplit. injection Hsplit as <- <-.
  destruct Hknown as (_ & _ & Hreturns).
  { repeat constructor; by eexists. }
  destruct Hreturns as (ids & tokens & Hids & Htokens & Hfit & Hcall).
  - intros _. by eexists.
  - intros _. by eexists.
  - apply ids_fit_example.
  - assert (tokens = [6; 5; 7]%Z) as ->.
    { vm_compute in Hcall. by injection Hcall as <-. }
    by split.
Defined.

(** ** Lists of strings *)

Section BatchFacts.
Context `{PySet} `{UnicodeTables}.

Lemma tokenize_sound_fresh self text prepend_bos append_eos :
  sound self ->
  fst (tokenize text prepend_bos append_eos self)
  = fst (tokenize text prepend_bos append_eos
                  (init (bpe_ranks self) (vocab self))).
Proof.
  intros Hs.
  destruct (transparent_tokenize text prepend_bos append_eos
              (init (bpe_ranks self) (vocab self)) (sound_init _ _))
    as (_ & _ & _ & Hsame).
  by apply Hsame.
Qed.

(** On a sound object the rows of a list of strings are what each string
    yields on a fresh tokenizer. *)
Lemma tokenize_each_rows texts prepend_bos append_eos : forall self rows,
  sound self ->
  fst (tokenize_each texts prepend_bos append_eos self) = Ok rows <->
  Forall2 (fun t row =>
             fst (tokenize t prepend_bos append_eos
                           (init (bpe_ranks self) (vocab self))) = Ok row)
          texts rows.
Proof.
  induction texts as [|t texts IH]; intros self rows Hs.
  - simpl. split; [intros [= <-]; constructor|by inversion 1].
  - cbn [tokenize_each]. unfold bind.
    pose proof (tokenize_sound_fresh self t prepend_bos append_eos Hs) as Ht.
    destruct (transparent_tokenize t prepend_bos append_eos self Hs)
      as (Hs1 & Hr1 & Hv1 & _).
    destruct (tokenize t prepend_bos append_eos self) as [o s1].
    simpl in Ht, Hs1, Hr1, Hv1.
    specialize (IH s1). rewrite Hr1, Hv1 in IH.
    destruct o as [row| |].
    + destruct (tokenize_each texts prepend_bos append_eos s1)
        as [[more| |] s2] eqn:Hmore; simpl.
      * split.
        -- intros [= <-]. constructor; [done|]. by apply IH.
        -- inversion 1 as [|? row' ? more' Hrow Hrest]; subst.
           apply IH in Hrest; [|done]. simpl in Hrest. congruence.
      * split; [discriminate|].
        inversion 1 as [|? row' ? more' Hrow Hrest]; subst.
        apply IH in Hrest; [|done]. discriminate.
      * split; [discriminate|].
        inversion 1 as [|? row' ? more' Hrow Hrest]; subst.
        apply IH in Hrest; [|done]. discriminate.
    + simpl. split; [discriminate|]. inversion 1; congruence.
    + simpl. split; [discriminate|]. inversion 1; congruence.
Qed.

Lemma same_lengths_rectangular rows :
  same_lengths rows = true -> rectangular (as_id_batch rows).
Proof.
  destruct rows as [|row rows]; [constructor|].
  unfold rectangular. simpl. intros Hall. constructor; [done|].
  apply Forall_forall. intros r Hr. rewrite forallb_forall in Hall.
  apply Nat.eqb_eq, Hall. by apply list_elem_of_In.
Qed.
End BatchFacts.

(** X9.  [tokenize] on a list of strings, on a sound object: if it returns
    rows, they are, in order, what a fresh tokenizer returns for each
    string alone, and they form a rectangular batch; and if every string
    alone yields a row, the call returns those rows when they all have one
    length and raises a [ValueError] when they do not.  (Nothing is
    padded.) *)
Theorem tokenize_list_rows `{PySet} `{UnicodeTables}
    (self : CLIPTokenizer) (texts : list string)
    (prepend_bos append_eos : bool) :
  sound self ->
  let alone t row :=
    fst (tokenize t prepend_bos append_eos
                  (init (bpe_ranks self) (vocab self))) = Ok row in
  (forall rows,
      fst (tokenize_list texts prepend_bos append_eos self) = Ok rows ->
      Forall2 alone texts rows /\ rectangular (as_id_batch rows)) /\
  (forall rows,
      Forall2 alone texts rows ->
      fst (tokenize_list texts prepend_bos append_eos self)
      = if same_lengths rows then Ok rows else Raise ValueError).
Proof.
  intros Hs alone. unfold tokenize_list, bind.
  pose proof (tokenize_each_rows texts prepend_bos append_eos self) as Hrows.
  destruct (tokenize_each texts prepend_bos append_eos self) as [o s1].
  simpl in Hrows. split.
  - intros rows. destruct o as [rows'| |]; try discriminate.
    destruct (same_lengths rows') eqn:Hlen; [|discriminate].
    simpl. intros [= <-]. split; [by apply Hrows|].
    by apply same_lengths_rectangular.
  - intros rows Hall. apply Hrows in Hall; [|done]. subst o.
    by destruct (same_lengths rows).
Qed.

Lemma tokenize_list_rows_witness :
  fst (tokenize_list ["ab"; "a b"] true true
                     (init example_ranks example_vocab))
  = Raise ValueError.
Proof.
  destruct (tokenize_list_rows (init example_ranks example_vocab)
              ["ab"; "a b"] true true (sound_init _ _)) as [_ Hraise].
  apply (Hraise [[6; 5; 7]; [6; 3; 4; 7]]%Z).
  repeat constructor.
Defined.

(** ** More on the coarse split *)



Lemma str_forallb_app p (a b : string) :
  str_forallb p (a +:+ b) = (str_forallb p a && str_forallb p b)%bool.
Proof.
  induction a as [|c a IH]; [done|]. rewrite str_append_cons. simpl.
  by rewrite IH, andb_assoc.
Qed.

Section SplitFacts.
Context `{UnicodeTables}.

Lemma str_lower_app (a b : string) :
  str_lower (a +:+ b) = str_lower a +:+ str_lower b.
Proof.
  unfold str_lower. induction a as [|c a IH]; [done|].
  rewrite str_append_cons. cbn [str_map]. by rewrite IH.
Qed.







Lemma sub_spaces_more ws : forall rest,
  str_forallb is_space ws = true ->
  sub_spaces true (ws +:+ rest) = sub_spaces true rest.
Proof.
  induction ws as [|c ws IH]; intros rest; [done|].
  rewrite str_append_cons. simpl. intros [Hc Hws]%andb_true_iff.
  rewrite Hc. by apply IH.
Qed.

Lemma sub_spaces_run ws rest in_run :
  ws <> EmptyString -> str_forallb is_space ws = true ->
  sub_spaces in_run (ws +:+ rest)
  = (if in_run then EmptyString else " ") +:+ sub_spaces true rest.
Proof.
  destruct ws as [|c ws]; [done|]. intros _.
  rewrite str_append_cons. simpl. intros [Hc Hws]%andb_true_iff.
  rewrite Hc, (sub_spaces_more ws rest Hws). by destruct in_run.
Qed.

Lemma sub_spaces_prefix before x y :
  (forall in_run, sub_spaces in_run x = sub_spaces in_run y) ->
  forall in_run,
    sub_spaces in_run (before +:+ x) = sub_spaces in_run (before +:+ y).
Proof.
  intros Hxy. induction before as [|c before IH]; intros in_run; [apply Hxy|].
  rewrite !str_append_cons. cbn [sub_spaces].
  destruct (is_space c), in_run; by rewrite ?IH.
Qed.
End SplitFacts.


(** X11.  The amount of white space does not matter: replacing a non-empty
    run of white space inside a text by another one changes neither the
    coarse tokens nor what [tokenize] returns and does to the object. *)
Theorem tokenize_any_white_space `{PySet} `{UnicodeTables}
    (self : CLIPTokenizer) (before ws ws' rest : string)
    (prepend_bos append_eos : bool) :
  ws <> EmptyString -> str_forallb is_space ws = true ->
  ws' <> EmptyString -> str_forallb is_space ws' = true ->
  coarse_tokens (before +:+ ws +:+ rest)
  = coarse_tokens (before +:+ ws' +:+ rest) /\
  tokenize (before +:+ ws +:+ rest) prepend_bos append_eos self
  = tokenize (before +:+ ws' +:+ rest) prepend_bos append_eos self.
Proof.
  intros Hne Hws Hne' Hws'.
  assert (Hsame : coarse_tokens (before +:+ ws +:+ rest)
                  = coarse_tokens (before +:+ ws' +:+ rest)).
  { assert (Hl : str_lower ws <> EmptyString) by by destruct ws.
    assert (Hl' : str_lower ws' <> EmptyString) by by destruct ws'.
    pose proof (str_lower_spaces ws Hws) as Hs.
    pose proof (str_lower_spaces ws' Hws') as Hs'.
    unfold coarse_tokens. f_equal. rewrite !str_lower_app.
    apply sub_spaces_prefix. intros in_run.
    rewrite (sub_spaces_run _ _ in_run Hl Hs).
    by rewrite (sub_spaces_run _ _ in_run Hl' Hs'). }
  split; [done|]. unfold tokenize. by rewrite Hsame.
Qed.

Lemma tokenize_any_white_space_witness :
  tokenize "ab  ab" true true (init example_ranks example_vocab)
  = tokenize "ab ab" true true (init example_ranks example_vocab).
Proof.
  apply (tokenize_any_white_space (init example_ranks example_vocab)
           "ab" "  " " " "ab" true true); done.
Defined.

(** ** The merge table of [from_pretrained] *)

Lemma ranks_from_found a b merges : forall i table r,
  ranks_from i merges table !! (a, b) = Some r ->
  (exists k, merges !! k = Some [a; b] /\ r = Z.of_nat (i + k) /\
             forall k', (k < k')%nat -> merges !! k' <> Some [a; b]) \/
  (table !! (a, b) = Some r /\ [a; b] ∉ merges).
Proof.
  induction merges as [|m merges IH]; intros i table r Hr.
  - right. split; [exact Hr|]. apply not_elem_of_nil.
  - assert (Hlater : forall table',
              ranks_from (S i) merges table' !! (a, b) = Some r ->
              (table' !! (a, b) = Some r -> [a; b] ∉ merges ->
               (exists k, (m :: merges) !! k = Some [a; b] /\
                          r = Z.of_nat (i + k) /\
                          forall k', (k < k')%nat ->
                                     (m :: merges) !! k' <> Some [a; b]) \/
               (table !! (a, b) = Some r /\ [a; b] ∉ m :: merges)) ->
              (exists k, (m :: merges) !! k = Some [a; b] /\
                         r = Z.of_nat (i + k) /\
                         forall k', (k < k')%nat ->
                                    (m :: merges) !! k' <> Some [a; b]) \/
              (table !! (a, b) = Some r /\ [a; b] ∉ m :: merges)).
    { intros table' Hr' Hhere.
      destruct (IH (S i) table' r Hr') as [(k & Hk & -> & Hlast)|[Ht Hnot]].
      - left. exists (S k). split; [done|]. split; [f_equal; lia|].
        intros [|k'] Hlt; [lia|]. apply Hlast. lia.
      - by apply Hhere. }
    assert (Hskip : m <> [a; b] ->
              ranks_from (S i) merges table !! (a, b) = Some r ->
              (exists k, (m :: merges) !! k = Some [a; b] /\
                         r = Z.of_nat (i + k) /\
                         forall k', (k < k')%nat ->
                                    (m :: merges) !! k' <> Some [a; b]) \/
              (table !! (a, b) = Some r /\ [a; b] ∉ m :: merges)).
    { intros Hm Hr'. apply (Hlater table Hr'). intros Ht Hnot. right.
      split; [done|]. rewrite elem_of_cons. intros [?|?]; congruence. }
    destruct m as [|x [|y [|z m]]]; cbn [ranks_from] in Hr;
      try (apply Hskip; [discriminate|exact Hr]).
    destruct (decide ((x, y) = (a, b))) as [[= -> ->]|Hne].
    + apply (Hlater _ Hr). intros Ht Hnot. left.
      rewrite lookup_insert_eq in Ht. injection Ht as <-.
      exists 0%nat. split; [done|]. split; [f_equal; lia|].
      intros [|k'] Hlt; [lia|]. simpl. intros Hk'. apply Hnot.
      by eapply list_elem_of_lookup_2.
    + apply (Hlater _ Hr). intros Ht Hnot. right.
      rewrite lookup_insert_ne in Ht by done. split; [done|].
      rewrite elem_of_cons. intros [[= -> ->]|?]; congruence.
Qed.

Lemma ranks_from_listed a b merges : forall i table,
  [a; b] ∈ merges \/ is_Some (table !! (a, b)) ->
  is_Some (ranks_from i merges table !! (a, b)).
Proof.
  induction merges as [|m merges IH]; intros i table Hin.
  - destruct Hin as [Hin|Hin]; [by apply elem_of_nil in Hin|done].
  - assert (Hskip : m <> [a; b] ->
              is_Some (ranks_from (S i) merges table !! (a, b))).
    { intros Hm. apply IH. destruct Hin as [Hin|Hin]; [|by right].
      apply elem_of_cons in Hin as [?|?]; [congruence|by left]. }
    destruct m as [|x [|y [|z m]]]; cbn [ranks_from];
      try (apply Hskip; discriminate).
    apply IH. destruct (decide ((x, y) = (a, b))) as [[= -> ->]|Hne].
    + right. by rewrite lookup_insert_eq.
    + rewrite lookup_insert_ne by done.
      destruct Hin as [Hin|Hin]; [|by right].
      apply elem_of_cons in Hin as [[= -> ->]|?]; [done|by left].
Qed.

Lemma build_ranks_found (merges : list (list string)) a b r :
  build_ranks merges !! (a, b) = Some r ->
  exists k, r = Z.of_nat k /\ merges !! k = Some [a; b] /\
            forall k', (k < k')%nat -> merges !! k' <> Some [a; b].
Proof.
  intros Hr.
  destruct (ranks_from_found a b merges 0 ∅ r Hr)
    as [(k & Hk & -> & Hlast)|[Ht _]]; [by exists k|].
  by rewrite lookup_empty in Ht.
Qed.

Lemma build_ranks_distinct (merges : list (list string)) :
  distinct_ranks (build_ranks merges).
Proof.
  intros [a b] [a' b'] r Hp Hq.
  destruct (build_ranks_found _ _ _ _ Hp) as (k & -> & Hk & _).
  destruct (build_ranks_found _ _ _ _ Hq) as (k' & Hkk & Hk' & _).
  apply Nat2Z.inj in Hkk as <-. congruence.
Qed.

(** X12.  The merge table built from a list of merges: the rank of a pair
    is the position of the last line that holds it, every listed pair has
    a rank, and no two pairs share a rank. *)
Theorem build_ranks_spec (merges : list (list string)) :
  (forall a b r,
      build_ranks merges !! (a, b) = Some r ->
      exists k, r = Z.of_nat k /\ merges !! k = Some [a; b] /\
                forall k', (k < k')%nat -> merges !! k' <> Some [a; b]) /\
  (forall a b, [a; b] ∈ merges -> is_Some (build_ranks merges !! (a, b))) /\
  distinct_ranks (build_ranks merges).
Proof.
  split; [apply build_ranks_found|]. split.
  - intros a b Hin. apply ranks_from_listed. by left.
  - apply build_ranks_distinct.
Qed.

(** X13.  A tokenizer loaded by [from_pretrained]: its cache is sound and
    its vocabulary the one read; a pair of rank [r] is the pair of line
    [r + 1] of the merge file (the first line is passed over), and every
    rank is below 48894; and, no two pairs sharing a rank, what [tokenize]
    returns does not depend on the order in which Python iterates over
    sets. *)
Theorem from_pretrained_spec `{UnicodeTables} (vocabulary : gmap string Z)
    (lines : list (list string)) :
  let self := from_pretrained vocabulary lines in
  (forall S : PySet, @sound S self) /\
  vocab self = vocabulary /\
  (forall a b r,
      bpe_ranks self !! (a, b) = Some r ->
      (0 <= r < 48894)%Z /\ lines !! S (Z.to_nat r) = Some [a; b]) /\
  (forall (S1 S2 : PySet) text prepend_bos append_eos,
      @tokenize S1 _ text prepend_bos append_eos self
      = @tokenize S2 _ text prepend_bos append_eos self).
Proof.
  intros self. split; [intros S; apply sound_init|]. split; [done|].
  split.
  - intros a b r Hr.
    destruct (build_ranks_found _ a b r Hr) as (k & -> & Hk & _).
    unfold merges_slice in Hk.
    apply lookup_take_Some in Hk as [Hk Hlt].
    rewrite lookup_drop in Hk. rewrite Nat2Z.id. split; [lia|exact Hk].
  - intros S1 S2 text prepend_bos append_eos. unfold tokenize, bind.
    by rewrite (bpe_tokens_any_order S1 S2 _ self (build_ranks_distinct _)).
Qed.

(** * Further properties of the model *)

Section ModelFacts.
Context `{Scalar}.

Lemma transpose_transpose m : well_shaped m -> transpose (transpose m) = m.
Proof.
  intros Hm. pose proof Hm as [Hrows Hcols].
  destruct m as [r c e]. unfold transpose at 1.
  cbn [n_rows n_cols entries] in Hrows, Hcols |- *.
  f_equal.
  change (map (fun j => column j (transpose {| n_rows := r; n_cols := c;
                                                entries := e |}))
              (seq 0 r) = e).
  apply list_eq. intros j. rewrite list_lookup_fmap.
  destruct (e !! j) as [row|] eqn:Hj.
  - rewrite lookup_seq_lt by (apply lookup_lt_Some in Hj; lia).
    simpl. f_equal. by apply column_transpose.
  - rewrite lookup_seq_ge; [done|]. apply lookup_ge_None in Hj. lia.
Qed.
End ModelFacts.

(** X14.  The logits of two well-shaped embedding matrices.  When the two
    have the same width, [logits_per_text] has one row for every text and
    one column for every image; [logits_per_image] has the mirrored shape,
    and transposing it gives [logits_per_text] back.  When the widths
    differ the product raises a [ValueError]. *)
Theorem logits_shapes `{Scalar} (self : CLIPModel) (text image : matrix) :
  well_shaped text -> well_shaped image ->
  (n_cols text = n_cols image ->
   exists per_text,
     logits_per_text self text image = Ok per_text /\
     well_shaped per_text /\
     n_rows per_text = n_rows text /\ n_cols per_text = n_rows image /\
     well_shaped (logits_per_image per_text) /\
     n_rows (logits_per_image per_text) = n_rows image /\
     n_cols (logits_per_image per_text) = n_rows text /\
     transpose (logits_per_image per_text) = per_text) /\
  (n_cols text <> n_cols image ->
   logits_per_text self text image = Raise ValueError).
Proof.
  intros Ht Hi. split.
  - intros Hw.
    destruct (logits_per_text_spec self text image Ht Hi Hw)
      as (per_text & Hrun & Hwp & Hr & Hc & _).
    exists per_text. split; [done|]. split; [done|].
    split; [done|]. split; [done|].
    assert (Hwt : well_shaped (transpose per_text)).
    { destruct Hwp as [Hlen Hwidth]. split; simpl.
      - by rewrite length_map, length_seq.
      - apply Forall_forall. intros col [j [-> _]]%list_elem_of_fmap.
        by rewrite column_length. }
    split; [exact Hwt|]. split; [by simpl|]. split; [by simpl|].
    by apply transpose_transpose.
  - intros Hw. unfold logits_per_text, matmul. cbn [transpose n_rows].
    by rewrite (proj2 (Nat.eqb_neq _ _) Hw).
Qed.

Lemma logits_shapes_witness :
  exists per_text,
    logits_per_text example_model
      (linear (text_projection example_model)
              (pooler_output example_text_out))
      (linear (visual_projection example_model)
              (pooler_output example_image_out))
    = Ok per_text /\
    n_rows per_text = 2%nat /\ n_cols per_text = 2%nat /\
    transpose (logits_per_image per_text) = per_text.
Proof.
  destruct (logits_shapes example_model
              (linear (text_projection example_model)
                      (pooler_output example_text_out))
              (linear (visual_projection example_model)
                      (pooler_output example_image_out))
              (well_shaped_linear _ _) (well_shaped_linear _ _))
    as [Hsame _].
  destruct (Hsame eq_refl)
    as (per_text & Hrun & _ & Hr & Hc & _ & _ & _ & Hback).
  by exists per_text.
Defined.

(** X15.  When [CLIPModel.__call__] returns and what it holds, for
    encoders that return on the inputs that are given.  With both inputs
    and projections of different output dimensions the call raises a
    [ValueError], whether or not a loss is asked for.  Otherwise (and,
    where a loss is asked for with both inputs, with at least one image)
    it returns: the outputs of the encoders as they are, for each input
    that is given the pooled outputs projected and divided by their L2
    norm, [None] for each input that is not given, and a loss exactly
    when both inputs are given and [return_loss] is set. *)
Theorem joint_call_outputs `{Memory} (self : CLIPModel)
    (input_ids : option id_batch) (pixel_values : option pixel_batch)
    (return_loss : bool)
    (text_out : option CLIPTextOutput) (image_out : option CLIPVisionOutput) :
  encoded (CLIPTextModel_call (text_model self)) input_ids text_out ->
  encoded (vision_model self) pixel_values image_out ->
  let both := is_Some input_ids /\ is_Some pixel_values in
  let text :=
    (fun out => embeddings (text_projection self) (pooler_output out))
      <$> text_out in
  let image :=
    (fun out => embeddings (visual_projection self) (pooler_output out))
      <$> image_out in
  (both ->
   length (text_projection self) <> length (visual_projection self) ->
   CLIPModel_call self input_ids pixel_values return_loss
   = Raise ValueError) /\
  ((both ->
    length (text_projection self) = length (visual_projection self)) ->
   (both -> return_loss = true ->
    forall out, image_out = Some out -> pooler_output out <> []) ->
   exists l,
     CLIPModel_call self input_ids pixel_values return_loss
     = Ok {| loss := l;
             text_embeds := text;
             image_embeds := image;
             text_model_output := text_out;
             vision_model_output := image_out |} /\
     (is_Some l <-> both /\ return_loss = true)).
Proof.
  intros Htext Himage both text image. unfold CLIPModel_call.
  destruct input_ids as [ids|], text_out as [tout|]; try done;
    destruct pixel_values as [pixels|], image_out as [vout|]; try done;
    simpl in Htext, Himage; rewrite ?Htext, ?Himage; cbn [obind];
    rewrite ?embeddings_model; subst text image both;
    cbn [fmap option_fmap option_map].
  - (* both inputs *)
    set (text := embeddings (text_projection self) (pooler_output tout)).
    set (image := embeddings (visual_projection self) (pooler_output vout)).
    assert (Hwt : well_shaped text).
    { unfold text. rewrite <- embeddings_model.
      apply well_shaped_normalize, well_shaped_linear. }
    assert (Hwi : well_shaped image).
    { unfold image. rewrite <- embeddings_model.
      apply well_shaped_normalize, well_shaped_linear. }
    split.
    + intros _ Hdim. unfold logits_per_text, matmul. cbn [transpose n_rows].
      change (n_cols text) with (length (text_projection self)).
      change (n_cols image) with (length (visual_projection self)).
      by rewrite (proj2 (Nat.eqb_neq _ _) Hdim).
    + intros Hdim Himages.
      destruct (logits_per_text_spec self text image Hwt Hwi)
        as (per_text & -> & Hwp & Hprows & Hpcols & _); [by apply Hdim|].
      cbn [obind]. destruct return_loss.
      * unfold clip_loss, cross_entropy_diagonal.
        cbn [logits_per_image transpose n_rows n_cols].
        rewrite Hprows, Hpcols.
        change (n_rows text) with (length (pooler_output tout)).
        change (n_rows image) with (length (pooler_output vout)).
        pose proof (text_output_nonempty _ _ _ Htext) as Htexts.
        assert (Hvs : pooler_output vout <> []) by by apply Himages.
        rewrite (proj2 (Nat.eqb_neq (length (pooler_output tout)) 0))
          by (by destruct (pooler_output tout)).
        rewrite (proj2 (Nat.eqb_neq (length (pooler_output vout)) 0))
          by (by destruct (pooler_output vout)).
        cbn [orb obind]. eexists. split; [reflexivity|].
        split; [done|]. intros _. by eexists.
      * cbn [obind]. eexists. split; [reflexivity|].
        split; [by intros [? ?]|]. by intros [_ ?].
  - (* token ids only *)
    split; [by intros [_ [? ?]]|]. intros _ _.
    eexists. split; [reflexivity|].
    split; [by intros [? ?]|]. by intros [[_ [? ?]] _].
  - (* pixel values only *)
    split; [by intros [[? ?] _]|]. intros _ _.
    eexists. split; [reflexivity|].
    split; [by intros [? ?]|]. by intros [[[? ?] _] _].
  - split; [by intros [[? ?] _]|]. intros _ _.
    eexists. split; [reflexivity|].
    split; [by intros [? ?]|]. by intros [[[? ?] _] _].
Qed.

Lemma joint_call_outputs_witness :
  CLIPModel_call example_model (Some example_ids) None true
  = Ok {| loss := None;
          text_embeds :=
            Some (embeddings (text_projection example_model)
                             (pooler_output example_text_out));
          image_embeds := None;
          text_model_output := Some example_text_out;
          vision_model_output := None |}.
Proof.
  destruct (joint_call_outputs example_model (Some example_ids) None true
              (Some example_text_out) None eq_refl I)
    as [_ (l & Hcall & Hloss)].
  - by intros [_ [? ?]].
  - by intros [_ [? ?]].
  - rewrite Hcall. destruct l as [l|]; [|reflexivity].
    by destruct (proj1 Hloss ltac:(eauto)) as [[_ [? ?]] _].
Defined.



(** ** Sequences of a batch do not mix *)

Section BatchIndependence.
Context `{Scalar}.

Lemma _embed_row self x y b hx hy :
  seq_len x = seq_len y -> id_rows x !! b = id_rows y !! b ->
  _embed self x = Ok hx -> _embed self y = Ok hy ->
  hx !! b = hy !! b.
Proof.
  intros Hn Hrow. unfold _embed. rewrite <- Hn.
  destruct (broadcast_len _ _); cbn [obind]; try discriminate.
  intros [= <-] [= <-]. by rewrite !list_lookup_fmap, Hrow.
Qed.

Lemma run_layers_row ls mask b : forall x y,
  Forall acts_per_sequence ls -> x !! b = y !! b ->
  run_layers ls mask x !! b = run_layers ls mask y !! b.
Proof.
  induction ls as [|l ls IH]; intros x y Hls Hxy; [done|].
  apply Forall_cons in Hls as [Hl Hls].
  change (run_layers (l :: ls) mask ?h) with (run_layers ls mask (l h mask)).
  apply IH; [done|]. by apply Hl.
Qed.
End BatchIndependence.

Lemma attention_layer_per_sequence : acts_per_sequence attention_layer.
Proof.
  intros mask x y b Hb. unfold attention_layer.
  change (@num sym_scalar) with sym in *.
  by rewrite !list_lookup_fmap, Hb.
Qed.

(** X17.  A sequence is encoded on its own: for a text encoder whose
    layers treat every sequence of a batch by itself, two batches of the
    same sequence length that hold the same sequence at index [b] get, at
    that index, the same hidden states and the same pooled output,
    whatever the other sequences of the two batches are and however many
    there are. *)
Theorem text_encoder_row_independent `{Scalar} (self : CLIPTextModel)
    (x y : id_batch) (b : nat) (out_x out_y : CLIPTextOutput) :
  seq_len x = seq_len y ->
  id_rows x !! b = id_rows y !! b ->
  Forall acts_per_sequence (layers self) ->
  CLIPTextModel_call self x = Ok out_x ->
  CLIPTextModel_call self y = Ok out_y ->
  last_hidden_state out_x !! b = last_hidden_state out_y !! b /\
  pooler_output out_x !! b = pooler_output out_y !! b.
Proof.
  intros Hn Hrow Hlayers. unfold CLIPTextModel_call.
  destruct (argmax x) as [eot_x| |] eqn:Hax; try discriminate.
  destruct (argmax y) as [eot_y| |] eqn:Hay; try discriminate.
  cbn [obind].
  destruct (_embed self x) as [hx| |] eqn:Hx; try discriminate.
  destruct (_embed self y) as [hy| |] eqn:Hy; try discriminate.
  cbn [obind]. rewrite <- Hn.
  set (mask := create_additive_causal_mask (seq_len x)).
  destruct (gather_rows _ eot_x) as [px| |] eqn:Hgx; try discriminate.
  destruct (gather_rows _ eot_y) as [py| |] eqn:Hgy; try discriminate.
  cbn [obind]. intros [= <-] [= <-]. cbn [last_hidden_state pooler_output].
  pose proof (_embed_row self x y b hx hy Hn Hrow Hx Hy) as Hh.
  pose proof (run_layers_row (layers self) mask b hx hy Hlayers Hh) as Hsame.
  assert (Hstates :
            map (map (final_layer_norm self))
                (run_layers (layers self) mask hx) !! b
            = map (map (final_layer_norm self))
                  (run_layers (layers self) mask hy) !! b).
  { by rewrite !list_lookup_fmap, Hsame. }
  split; [exact Hstates|].
  unfold argmax in Hax, Hay.
  destruct (_ || _)%bool; [discriminate|]. injection Hax as <-.
  destruct (_ || _)%bool; [discriminate|]. injection Hay as <-.
  destruct (id_rows x !! b) as [row|] eqn:Hbx.
  - destruct (gather_rows_inv _ _ _ Hgx b (argmax_row row))
      as (sx & vx & Hsx & Hvx & ->).
    { by rewrite list_lookup_fmap, Hbx. }
    destruct (gather_rows_inv _ _ _ Hgy b (argmax_row row))
      as (sy & vy & Hsy & Hvy & ->).
    { by rewrite list_lookup_fmap, <- Hrow. }
    rewrite Hsx, Hsy in Hstates. congruence.
  - pose proof (gather_rows_length _ _ _ Hgx) as Hlx.
    pose proof (gather_rows_length _ _ _ Hgy) as Hly.
    rewrite length_map in Hlx, Hly.
    rewrite (proj2 (lookup_ge_None px b)), (proj2 (lookup_ge_None py b));
      [done| |].
    + symmetry in Hrow. apply lookup_ge_None in Hrow. lia.
    + apply lookup_ge_None in Hbx. lia.
Qed.

Lemma text_encoder_row_independent_witness :
  match CLIPTextModel_call example_causal_model example_ids,
        CLIPTextModel_call example_causal_model example_ids_other with
  | Ok out, Ok out' =>
      last_hidden_state out !! 0%nat = last_hidden_state out' !! 0%nat /\
      pooler_output out !! 0%nat = pooler_output out' !! 0%nat
  | _, _ => False
  end.
Proof.
  destruct (CLIPTextModel_call example_causal_model example_ids)
    as [out| |] eqn:Hx; [|discriminate Hx|discriminate Hx].
  destruct (CLIPTextModel_call example_causal_model example_ids_other)
    as [out'| |] eqn:Hy; [|discriminate Hy|discriminate Hy].
  apply (text_encoder_row_independent example_causal_model example_ids
           example_ids_other 0 out out').
  - reflexivity.
  - reflexivity.
  - repeat constructor; apply attention_layer_per_sequence.
  - exact Hx.
  - exact Hy.
Defined.

(** ** The vision encoder *)


Lemma concat_length_grid {A} (w : nat) (image : list (list A)) :
  Forall (fun row => length row = w) image ->
  length (concat image) = (length image * w)%nat.
Proof.
  induction 1 as [|row image Hrow _ IH]; [done|].
  simpl. rewrite length_app, IH, Hrow. lia.
Qed.

Section VisionFacts.
Context `{Scalar}.

Lemma vision_embed_lengths self x h :
  Vision.well_formed (Vision.patch_embedding self x) ->
  length (Vision.position_embedding self) =
    S (grid_height (Vision.patch_embedding self x) *
       grid_width (Vision.patch_embedding self x)) ->
  Vision._embed self x = Ok h ->
  length h = length (patches (Vision.patch_embedding self x)) /\
  Forall (fun states =>
            length states = length (Vision.position_embedding self)) h.
Proof.
  intros Hgrid Hpos. unfold Vision._embed.
  unfold broadcast_len. rewrite Hpos, Nat.eqb_refl. cbn [obind].
  intros [= <-]. split; [by rewrite !length_map|].
  rewrite !Forall_fmap. eapply Forall_impl; [exact Hgrid|].
  intros image [Hh Hw]. unfold compose. cbv beta.
  assert (Hsame : length (Vision.class_embedding self :: concat image) =
                  length (Vision.position_embedding self)).
  { simpl. by rewrite (concat_length_grid _ _ Hw), Hh, Hpos. }
  unfold broadcast_add. rewrite Hsame, Nat.eqb_refl, length_zip_with.
  rewrite Hsame, Hpos. lia.
Qed.

Lemma vision_embed_Ok self x :
  length (Vision.position_embedding self) =
    S (grid_height (Vision.patch_embedding self x) *
       grid_width (Vision.patch_embedding self x)) ->
  exists h, Vision._embed self x = Ok h.
Proof.
  intros Hpos. unfold Vision._embed, broadcast_len.
  rewrite Hpos, Nat.eqb_refl. cbn [obind]. by eexists.
Qed.

Lemma vision_layers_shape (ls : list (hidden -> hidden)) : forall x,
  Forall Vision.keeps_shape ls ->
  map length (fold_left (fun x l => l x) ls x) = map length x.
Proof.
  induction ls as [|l ls IH]; intros x Hls; [done|].
  inversion Hls as [|? ? Hl Hls']; subst. simpl.
  by rewrite IH, Hl.
Qed.

Lemma first_positions_Ok (x : hidden) :
  Forall (fun states => states <> []) x ->
  exists firsts,
    Vision.first_positions x = Ok firsts /\
    length firsts = length x /\
    forall b states, x !! b = Some states ->
      exists first, states !! 0%nat = Some first /\
                    firsts !! b = Some first.
Proof.
  induction 1 as [|states x Hne _ (firsts & Hf & Hlen & Hat)].
  - exists []. by split.
  - destruct states as [|first states]; [done|].
    exists (first :: firsts). simpl. rewrite Hf. cbn [obind].
    split; [done|]. split; [simpl; lia|].
    intros [|b] states' Hb; simpl in Hb.
    + injection Hb as <-. by exists first.
    + by apply Hat.
Qed.
End VisionFacts.



(** X19.  The vision forward pass on a patch grid that fits the position
    table, with layers that keep the shape of the hidden states: it
    returns one sequence of [num_patches + 1] states per image, and the
    pooled output of an image is the final layer norm of the state at
    position 0, the place of the class token. *)
Theorem vision_pools_class_token `{Scalar}
    (self : Vision.CLIPVisionModel) (x : pixel_batch) :
  let grid := Vision.patch_embedding self x in
  Vision.well_formed grid ->
  length (Vision.position_embedding self) =
    S (grid_height grid * grid_width grid) ->
  Forall Vision.keeps_shape (Vision.layers self) ->
  exists out,
    Vision.call self x = Ok out /\
    length (last_hidden_state out) = length (patches grid) /\
    length (pooler_output out) = length (patches grid) /\
    forall b states,
      last_hidden_state out !! b = Some states ->
      length states = S (grid_height grid * grid_width grid) /\
      exists class_state,
        states !! 0%nat = Some class_state /\
        pooler_output out !! b =
          Some (Vision.post_layernorm self class_state).
Proof.
  intros grid Hgrid Hpos Hlayers.
  destruct (vision_embed_Ok self x Hpos) as [h Hh].
  destruct (vision_embed_lengths self x h Hgrid Hpos Hh) as [Hlen Hstates].
  fold grid in Hlen. rewrite Hpos in Hstates. fold grid in Hstates.
  unfold Vision.call. rewrite Hh. cbn [obind].
  set (final := fold_left _ _ _).
  assert (Hshape : map length final = map length h).
  { unfold final. rewrite vision_layers_shape by done.
    rewrite <- list_fmap_compose. apply list_fmap_ext.
    intros i states _. simpl. by rewrite length_map. }
  assert (Hfinal : Forall (fun states =>
            length states = S (grid_height grid * grid_width grid)) final).
  { apply Forall_lookup_2. intros b states Hb.
    assert (Hl : map length final !! b = Some (length states))
      by (by rewrite list_lookup_fmap, Hb).
    rewrite Hshape, list_lookup_fmap in Hl.
    destruct (h !! b) as [states'|] eqn:Hb'; [|done].
    injection Hl as <-. by apply (Forall_lookup_1 _ _ _ _ Hstates Hb'). }
  destruct (first_positions_Ok final) as (firsts & Hf & Hflen & Hat).
  { eapply Forall_impl; [exact Hfinal|]. intros [|] ?; simpl in *; done. }
  rewrite Hf. cbn [obind]. eexists. split; [reflexivity|].
  cbn [last_hidden_state pooler_output].
  assert (Hn : length final = length h).
  { by rewrite <- (length_map length final), Hshape, length_map. }
  split; [congruence|]. split; [rewrite length_map; congruence|].
  intros b states Hb. split; [by apply (Forall_lookup_1 _ _ _ _ Hfinal Hb)|].
  destruct (Hat b states Hb) as (first & H0 & Hfirst).
  exists first. split; [done|]. by rewrite list_lookup_fmap, Hfirst.
Qed.

Lemma vision_pools_class_token_witness :
  exists out,
    Vision.call example_vision_model example_pixels = Ok out /\
    pooler_output out = [[SAdd (SLit 50) (SLit 100)];
                         [SAdd (SLit 50) (SLit 100)]].
Proof.
  destruct (vision_pools_class_token example_vision_model example_pixels)
    as (out & Hout & _).
  - repeat constructor.
  - reflexivity.
  - repeat constructor; intros x; unfold Vision.keeps_shape;
      by rewrite !length_map || (rewrite <- list_fmap_compose;
         apply list_fmap_ext; intros; simpl; by rewrite length_map).
  - exists out. split; [exact Hout|].
    vm_compute in Hout. by injection Hout as <-.
Defined.

(** X20.  An image whose patch grid does not fit the position table is
    rejected: when the grid has patches and the table has neither one
    row nor [num_patches + 1] rows, the forward pass raises the shape
    error of the addition. *)
Theorem vision_grid_mismatch `{Scalar}
    (self : Vision.CLIPVisionModel) (x : pixel_batch) :
  let grid := Vision.patch_embedding self x in
  (grid_height grid * grid_width grid)%nat <> 0%nat ->
  length (Vision.position_embedding self) <>
    S (grid_height grid * grid_width grid) ->
  length (Vision.position_embedding self) <> 1%nat ->
  Vision.call self x = Raise ValueError.
Proof.
  intros grid Hpatches Hfit Hone.
  unfold Vision.call, Vision._embed, broadcast_len. fold grid.
  destruct (Nat.eqb_spec (S (grid_height grid * grid_width grid))
              (length (Vision.position_embedding self))); [congruence|].
  destruct (Nat.eqb_spec (length (Vision.position_embedding self)) 1);
    [congruence|].
  destruct (Nat.eqb_spec (S (grid_height grid * grid_width grid)) 1);
    [lia|].
  done.
Qed.

Lemma vision_grid_mismatch_witness :
  Vision.call example_vision_short example_pixels = Raise ValueError.
Proof.
  apply (vision_grid_mismatch example_vision_short example_pixels);
    vm_compute; lia.
Defined.
